(** * contrail-gremlin: the gremlin backend and the neutron gateway

    A shallow embedding of the Go sources
    - package [gremlin] (server backend: connection flag, vertex and edge
      CRUD, edge reconciliation, property query generators), and
    - package [main] of the neutron gateway (request decoding, dispatch and
      fallback forwarding),
    followed by the properties stated about them.

    Conventions.  A Go [map[string]T] is a [gmap string T]; a [range] over a
    map yields its entries in an order the language leaves open, so every
    function that ranges over a map takes the sequence of entries of that
    iteration as an argument.  A Go function with side effects is a state
    transformer over an explicit record of the state it touches. *)

From Stdlib Require Import Ascii.
From stdpp Require Import gmap strings list fin_maps sorting pretty.

(** ** Go library functions used by both packages *)

Section SliceStable.
Context {A : Type} (less : A → A → bool).

(** [sort.SliceStable]: a stable sort; an element moves in front of the
    first element that is not [less] than it. *)
Fixpoint insertStable (x : A) (l : list A) : list A :=
  match l with
  | [] => [x]
  | y :: l' => if less y x then y :: insertStable x l' else x :: l
  end.

Definition SliceStable (l : list A) : list A := foldr insertStable [] l.
End SliceStable.

(** [strings.Replace(s, ".", "_", -1)] *)
Fixpoint ReplaceDots (s : string) : string :=
  match s with
  | EmptyString => EmptyString
  | String c s' =>
      String (if Ascii.eqb c "."%char then "_"%char else c) (ReplaceDots s')
  end.

(** The strict order [<] of Go strings: bytewise lexicographic. *)
Definition strLess (s1 s2 : string) : bool := String.ltb s1 s2.

Module Gremlin.

(** *** Values held in an [interface{}] *)

#[warnings="-register-all"]
Inductive value : Type :=
  | VNil
  | VBool (b : bool)
  | VNum (n : Z)
  | VStr (s : string)
  | VList (l : list value).

Definition value_eq_dec : ∀ x y : value, Decision (x = y).
Proof.
  fix IH 1.
  intros [| b | n | s | l] [| b' | n' | s' | l'];
    try (right; discriminate).
  - left; reflexivity.
  - destruct (decide (b = b')) as [->|Hne]; [left; reflexivity|right; congruence].
  - destruct (decide (n = n')) as [->|Hne]; [left; reflexivity|right; congruence].
  - destruct (decide (s = s')) as [->|Hne]; [left; reflexivity|right; congruence].
  - assert (Hl : Decision (l = l')).
    { revert l'. induction l as [|a l IHl]; intros [|a' l'];
        try (right; discriminate); [left; reflexivity|].
      destruct (IH a a') as [->|Hne]; [|right; congruence].
      destruct (IHl l') as [->|Hne]; [left; reflexivity|right; congruence]. }
    destruct Hl as [->|Hne]; [left; reflexivity|right; congruence].
Defined.

#[global] Instance value_eq_decision : EqDecision value := value_eq_dec.

(** [gremlin.Bind]: named parameters of a script. *)
Abbreviation Bind := (gmap string value) (only parsing).

(** Modelled from the spec: the declarations of [Property], [Edge] and
    [Vertex] live in a file of the package that is not part of the sources
    at hand.  Their fields are the ones the functions below read: a property
    is an opaque value; an edge is an ordered pair of vertex ids with a
    label, optional endpoint labels and a map from names to single
    properties; a vertex has an id, a label, a map from names to lists of
    properties and its outgoing and incoming edges grouped by label.  A
    vertex id is kept in its textual form, so [ID.String()] is the
    identity. *)
Abbreviation UUID := string (only parsing).

Record Property : Type := mkProperty { Value : value }.

#[global] Instance Property_eq_dec : EqDecision Property.
Proof. solve_decision. Defined.

(** The zero value [Property{}]. *)
#[global] Instance Property_inhabited : Inhabited Property :=
  populate (mkProperty VNil).

Module Edge.
Record t : Type := mk {
  OutV : UUID;
  OutVLabel : string;
  InV : UUID;
  InVLabel : string;
  Label : string;
  Properties : gmap string Property
}.
End Edge.

Module Vertex.
Record t : Type := mk {
  ID : UUID;
  Label : string;
  Properties : gmap string (list Property);
  OutE : gmap string (list Edge.t);
  InE : gmap string (list Edge.t)
}.
End Vertex.

(** *** Property query generators *)

(** [fmt.Sprintf(`_%s_%d`, strings.Replace(propName, `.`, `_`, -1), i)] *)
Definition vertexBindName (propName : string) (i : nat) : string :=
  "_" +:+ ReplaceDots propName +:+ "_" +:+ pretty i.

(** [fmt.Sprintf(`_%s`, strings.Replace(propName, `.`, `_`, -1))] *)
Definition edgeBindName (propName : string) : string :=
  "_" +:+ ReplaceDots propName.

(** The first loop of [vertexPropertiesQuery]:
    [propNames[i] = name; i++] for every name of the iteration. *)
Fixpoint fillNames (names : list string) (i : nat) (propNames : list string)
  : list string :=
  match names with
  | [] => propNames
  | name :: names' => fillNames names' (S i) (<[i := name]> propNames)
  end.

(** One turn of the inner loop of [vertexPropertiesQuery]. *)
Definition vertexPropertyStep (propList : gmap string (list Property))
    (propName : string) (i : nat) (v : Property) (st : string * Bind)
  : string * Bind :=
  let '(buffer, bindings) := st in
  let bindName := vertexBindName propName i in
  let buffer := buffer +:+ ".property(" in
  let buffer :=
    if decide (1 < length (propList !!! propName))
    then buffer +:+ "list," else buffer in
  let buffer := buffer +:+ ("'" +:+ propName +:+ "',") in
  let buffer := buffer +:+ bindName in
  let buffer := buffer +:+ ")" in
  (buffer, <[bindName := Value v]> bindings).

(** [for i, value := range propList[propName]] from index [i] on. *)
Fixpoint vertexPropertyValues (propList : gmap string (list Property))
    (propName : string) (i : nat) (values : list Property)
    (st : string * Bind) : string * Bind :=
  match values with
  | [] => st
  | v :: values' =>
      vertexPropertyValues propList propName (S i) values'
        (vertexPropertyStep propList propName i v st)
  end.

(** [vertexPropertiesQuery]; [iter] is the sequence of entries that
    [range propList] yields. *)
Definition vertexPropertiesQuery
    (iter : list (string * list Property))
    (propList : gmap string (list Property)) : string * Bind :=
  let propNames := replicate (size propList) "" in
  let propNames := fillNames iter.*1 0 propNames in
  let propNames := SliceStable strLess propNames in
  fold_left
    (λ st propName,
       vertexPropertyValues propList propName 0 (propList !!! propName) st)
    propNames ("", ∅).

(** The first loop of [edgePropertiesQuery]: names of the properties whose
    value is not nil, appended in iteration order. *)
Fixpoint appendNonNil (iter : list (string * Property))
    (propNames : list string) : list string :=
  match iter with
  | [] => propNames
  | (name, prop) :: iter' =>
      appendNonNil iter'
        (if decide (Value prop ≠ VNil) then propNames ++ [name]
         else propNames)
  end.

(** One turn of the second loop of [edgePropertiesQuery]. *)
Definition edgePropertyStep (propList : gmap string Property)
    (st : string * Bind) (propName : string) : string * Bind :=
  let '(buffer, bindings) := st in
  let bindName := edgeBindName propName in
  let buffer := buffer +:+ ".property(" in
  let buffer := buffer +:+ ("'" +:+ propName +:+ "',") in
  let buffer := buffer +:+ bindName in
  let buffer := buffer +:+ ")" in
  (buffer, <[bindName := Value (propList !!! propName)]> bindings).

(** [edgePropertiesQuery]; [iter] is the sequence of entries that
    [range propList] yields. *)
Definition edgePropertiesQuery (iter : list (string * Property))
    (propList : gmap string Property) : string * Bind :=
  let propNames := appendNonNil iter [] in
  let propNames := SliceStable strLess propNames in
  fold_left (edgePropertyStep propList) propNames ("", ∅).

(** *** Errors *)

(** Errors of the gremlin client library: the one status the backend tests
    for, any other status reported by the server, and failures of the
    connection itself (closed connection, timeout). *)
Inductive client_error : Type :=
  | ErrStatusInvalidRequestArguments
  | ErrStatus (msg : string)
  | ErrConnection (msg : string).

#[global] Instance client_error_eq_dec : EqDecision client_error.
Proof. solve_decision. Defined.

(** A Go [error] of this package: [ErrIncompleteVertex], declared here, or
    an error handed up from the client.  [nil] is [None]. *)
Inductive error : Type :=
  | ErrIncompleteVertex
  | ClientError (e : client_error).

#[global] Instance error_eq_dec : EqDecision error.
Proof. solve_decision. Defined.

(** [gremlin.Query(query).Bindings(bindings)] *)
Record Request : Type := Query { Gremlin : string; Bindings : Bind }.

(** [log.Errorf("Query: %s, Bindings: %s", query, bindings)] *)
Inductive LogEntry : Type :=
  | LogQueryError (query : string) (bindings : Bind).

(** *** The server backend *)

Section Backend.
(** [T] is the state of the gremlin client, [O] the state the registered
    connection handlers act on. *)
Context {T O : Type}.

(** [client.Send]: result bytes or an error, synchronously. *)
Variable clientSend : Request → T → (string + client_error) * T.
(** [json.Unmarshal(data, &edges)], whose error the caller drops. *)
Variable unmarshalEdges : string → list Edge.t.
(** The entries a [range] over a map yields, in the order of that run. *)
Variable mapRange : ∀ V : Type, gmap string V → list (string * V).
(** [b.client.AddConnectedHandler(b.onConnected)] and
    [b.client.AddDisconnectedHandler(b.onDisconnected)]: the client once
    it holds the notification of the backend.  The client calls the two
    notifications from its own code, which is not part of the sources at
    hand; such a call is the transition [onConnected] or [onDisconnected]
    below. *)
Variable clientAddConnectedHandler : T → T.
Variable clientAddDisconnectedHandler : T → T.

Record ServerBackend : Type := mkServerBackend {
  client : T;
  connected : bool;
  connectedHandlers : list (O → O);
  disconnectedHandlers : list (option client_error → O → O)
}.

(** Everything the methods of the backend read or write: the backend
    [b], the requests handed to the client so far (oldest first), the
    package logger and the state of the observers. *)
Record World : Type := mkWorld {
  backend : ServerBackend;
  sent : list Request;
  logged : list LogEntry;
  observed : O
}.

Definition M (A : Type) : Type := World → A * World.
#[local] Instance M_ret : MRet M := λ A a w, (a, w).
#[local] Instance M_bind : MBind M :=
  λ A B k m w, let '(a, w') := m w in k a w'.
Definition ret {A} (a : A) : M A := mret a.

Definition withBackend (f : ServerBackend → ServerBackend) : M unit :=
  λ w, (tt, mkWorld (f (backend w)) (sent w) (logged w) (observed w)).

Definition logErrorf (e : LogEntry) : M unit :=
  λ w, (tt, mkWorld (backend w) (sent w) (logged w ++ [e]) (observed w)).

(** [NewServerBackend]; [c] is the client [gremlin.NewClient] returns.
    The backend keeps the client with its two notifications registered,
    starts with no handlers of its own and reads disconnected. *)
Definition NewServerBackend (c : T) : ServerBackend :=
  mkServerBackend
    (clientAddDisconnectedHandler (clientAddConnectedHandler c))
    false [] [].

Definition AddConnectedHandler (h : O → O) : M unit :=
  withBackend (λ b,
    mkServerBackend (client b) (connected b)
      (connectedHandlers b ++ [h]) (disconnectedHandlers b)).

Definition AddDisconnectedHandler (h : option client_error → O → O)
  : M unit :=
  withBackend (λ b,
    mkServerBackend (client b) (connected b)
      (connectedHandlers b) (disconnectedHandlers b ++ [h])).






(** [Send]: the request goes to the client, whose answer is returned as
    it is. *)
Definition Send (req : Request) : M (string + client_error) :=
  λ w,
    let b := backend w in
    let '(res, c) := clientSend req (client b) in
    (res,
     mkWorld
       (mkServerBackend c (connected b)
          (connectedHandlers b) (disconnectedHandlers b))
       (sent w ++ [req]) (logged w) (observed w)).

(** The [err] of [_, err := b.Send(...)]. *)
Definition errOf (res : string + client_error) : option error :=
  match res with
  | inl _ => None
  | inr e => Some (ClientError e)
  end.

Definition createEdgeFromOutV : string := "g.V(_outv).as('outv').coalesce(
			g.V(_inv),
			g.addV(_inv_label)
			 .property(id, _inv)
			 .property('fq_name', ['_missing'])
			 .property('_missing', true)
			 .property('deleted', 0)
		).addE(_label).from('outv')".
Definition createEdgeFromInV : string := "g.V(_inv).as('inv').coalesce(
			g.V(_outv),
			g.addV(_outv_label)
			 .property(id, _outv)
			 .property('fq_name', ['_missing'])
			 .property('_missing', true)
			 .property('deleted', 0)
		).addE(_label).to('inv')".

Definition CreateEdge (e : Edge.t) : M (option error) :=
  let '(props, bindings) :=
    edgePropertiesQuery (mapRange _ (Edge.Properties e))
      (Edge.Properties e) in
  let bindings := <["_outv" := VStr (Edge.OutV e)]> bindings in
  let bindings := <["_outv_label" := VStr (Edge.OutVLabel e)]> bindings in
  let bindings := <["_inv" := VStr (Edge.InV e)]> bindings in
  let bindings := <["_inv_label" := VStr (Edge.InVLabel e)]> bindings in
  let bindings := <["_label" := VStr (Edge.Label e)]> bindings in
  let query := "" in
  let query :=
    if decide (Edge.OutVLabel e = "")
    then createEdgeFromOutV +:+ props +:+ ".iterate()" else query in
  let query :=
    if decide (Edge.InVLabel e = "")
    then createEdgeFromInV +:+ props +:+ ".iterate()" else query in
  res ← Send (Query query bindings) ;
  let err := errOf res in
  (if decide (err = Some (ClientError ErrStatusInvalidRequestArguments))
   then logErrorf (LogQueryError query bindings) else ret tt) ;;
  ret err.

Definition updateVertexHead : string := "g.V().hasId(_id).fold().
			  coalesce(unfold().sideEffect(properties().drop()),
					   addV(_label).property(id, _id))
			 ".

Definition updateEdgeHead : string := "g.V(_inv).bothE().where(otherV().hasId(_outv))
			   .sideEffect(properties().drop())".

Definition UpdateEdge (e : Edge.t) : M (option error) :=
  let '(props, bindings) :=
    edgePropertiesQuery (mapRange _ (Edge.Properties e))
      (Edge.Properties e) in
  let bindings := <["_inv" := VStr (Edge.InV e)]> bindings in
  let bindings := <["_outv" := VStr (Edge.OutV e)]> bindings in
  let query := updateEdgeHead +:+ props +:+ ".iterate()" in
  res ← Send (Query query bindings) ;
  let err := errOf res in
  (if decide (err = Some (ClientError ErrStatusInvalidRequestArguments))
   then logErrorf (LogQueryError query bindings) else ret tt) ;;
  ret err.

Definition DeleteVertex (v : Vertex.t) : M (option error) :=
  res ← Send (Query "g.V(_id).drop()" {[ "_id" := VStr (Vertex.ID v) ]}) ;
  match errOf res with
  | Some err => ret (Some err)
  | None => ret None
  end.

Definition DeleteEdge (e : Edge.t) : M (option error) :=
  res ← Send
    (Query "g.V(_inv).bothE().where(otherV().hasId(_outv)).drop()"
       (<["_outv" := VStr (Edge.OutV e)]>
          (<["_inv" := VStr (Edge.InV e)]> ∅))) ;
  ret (errOf res).

Definition UpdateVertexProperty (v : Vertex.t) (name : string)
    (value : value) : M (option error) :=
  if decide (Vertex.Label v = "") then ret (Some ErrIncompleteVertex)
  else
    let query := "g.V(_id).property(_name, _value).iterate()" in
    res ← Send
      (Query query
         (<["_value" := value]>
            (<["_name" := VStr name]>
               (<["_id" := VStr (Vertex.ID v)]> ∅)))) ;
    match errOf res with
    | Some err => ret (Some err)
    | None => ret None
    end.

Definition currentVertexEdges (v : Vertex.t)
  : M (list Edge.t * option error) :=
  res ← Send (Query "g.V(_id).bothE()" {[ "_id" := VStr (Vertex.ID v) ]}) ;
  match res with
  | inr e => ret ([], Some (ClientError e))
  | inl data => ret (unmarshalEdges data, None)
  end.

(** [l1.InV == l2.InV && l1.OutV == l2.OutV && l1.Label == l2.Label] *)
Definition sameEdge (l1 l2 : Edge.t) : bool :=
  bool_decide (Edge.InV l1 = Edge.InV l2)
  && bool_decide (Edge.OutV l1 = Edge.OutV l2)
  && bool_decide (Edge.Label l1 = Edge.Label l2).

(** [cmp.Equal] on two property maps: equal as maps, values compared in
    depth. *)
Definition cmpEqual (p1 p2 : gmap string Property) : bool :=
  bool_decide (p1 = p2).

(** The inner loop of the first pass of [diffVertexEdges]: the flags
    [(found, update)] when the loop is left. *)
Fixpoint scanCurrent (l1 : Edge.t) (currentEdges : list Edge.t)
  : bool * bool :=
  match currentEdges with
  | [] => (false, false)
  | l2 :: rest =>
      if sameEdge l1 l2
      then (true, negb (cmpEqual (Edge.Properties l1) (Edge.Properties l2)))
      else scanCurrent l1 rest
  end.

(** The inner loop of the second pass: the flag [found]. *)
Fixpoint scanDesired (l1 : Edge.t) (vertexEdges : list Edge.t) : bool :=
  match vertexEdges with
  | [] => false
  | l2 :: rest => if sameEdge l1 l2 then true else scanDesired l1 rest
  end.

(** [vertexEdges]: the groups of [v.OutE], then those of [v.InE]. *)
Definition vertexEdges (v : Vertex.t) : list Edge.t :=
  let appendGroups :=
    fold_left (λ acc (g : string * list Edge.t), acc ++ g.2) in
  let edges := appendGroups (mapRange _ (Vertex.OutE v)) [] in
  appendGroups (mapRange _ (Vertex.InE v)) edges.

Definition diffEdges (vertexEdges currentEdges : list Edge.t)
  : list Edge.t * list Edge.t * list Edge.t :=
  let '(toAdd, toUpdate) :=
    fold_left
      (λ '(toAdd, toUpdate) l1,
         let '(found, update) := scanCurrent l1 currentEdges in
         let toAdd := if negb found then toAdd ++ [l1] else toAdd in
         let toUpdate :=
           if found && update then toUpdate ++ [l1] else toUpdate in
         (toAdd, toUpdate))
      vertexEdges ([], []) in
  let toRemove :=
    fold_left
      (λ toRemove l1,
         if negb (scanDesired l1 vertexEdges) then toRemove ++ [l1]
         else toRemove)
      currentEdges [] in
  (toAdd, toUpdate, toRemove).

(** [diffVertexEdges] returns [(toAdd, toUpdate, toRemove, err)]. *)
Definition diffVertexEdges (v : Vertex.t)
  : M (list Edge.t * list Edge.t * list Edge.t * option error) :=
  r ← currentVertexEdges v ;
  let '(currentEdges, err) := r in
  match err with
  | Some e => ret ([], [], [], Some e)
  | None => ret (diffEdges (vertexEdges v) currentEdges, None)
  end.

(** [for _, edge := range edges { err = op(edge); if err != nil
    { return err } }]; [None] when the loop runs to its end. *)
Fixpoint rangeEdges (op : Edge.t → M (option error)) (edges : list Edge.t)
  : M (option error) :=
  match edges with
  | [] => ret None
  | edge :: rest =>
      err ← op edge ;
      match err with
      | Some e => ret (Some e)
      | None => rangeEdges op rest
      end
  end.

Definition updateVertexEdges (v : Vertex.t) : M (option error) :=
  d ← diffVertexEdges v ;
  let '(toAdd, toUpdate, toRemove, err) := d in
  match err with
  | Some e => ret (Some e)
  | None =>
      err ← rangeEdges CreateEdge toAdd ;
      match err with
      | Some e => ret (Some e)
      | None =>
          err ← rangeEdges UpdateEdge toUpdate ;
          match err with
          | Some e => ret (Some e)
          | None =>
              err ← rangeEdges DeleteEdge toRemove ;
              match err with
              | Some e => ret (Some e)
              | None => ret None
              end
          end
      end
  end.

Definition UpdateVertex (v : Vertex.t) : M (option error) :=
  if decide (Vertex.Label v = "") then ret (Some ErrIncompleteVertex)
  else
    let '(props, bindings) :=
      vertexPropertiesQuery (mapRange _ (Vertex.Properties v))
        (Vertex.Properties v) in
    let bindings := <["_id" := VStr (Vertex.ID v)]> bindings in
    let bindings := <["_label" := VStr (Vertex.Label v)]> bindings in
    let query := updateVertexHead +:+ props +:+ ".iterate()" in
    res ← Send (Query query bindings) ;
    match errOf res with
    | Some err =>
        (if decide (err = ClientError ErrStatusInvalidRequestArguments)
         then logErrorf (LogQueryError query bindings) else ret tt) ;;
        ret (Some err)
    | None => updateVertexEdges v
    end.

(** [CreateVertex]: [UpdateVertex] handles creation as well. *)
Definition CreateVertex (v : Vertex.t) : M (option error) := UpdateVertex v.

End Backend.

End Gremlin.

(** ** Package main: the neutron gateway *)

Module Neutron.

(** A function that either returns or panics. *)
Inductive outcome (A : Type) : Type :=
  | Returned (a : A)
  | Panicked (msg : string).
Arguments Returned {A} a.
Arguments Panicked {A} msg.

(** What [json.Unmarshal] stores in an [interface{}].  The entries of an
    object come in the order a [range] over the decoded map yields them;
    their keys are distinct. *)
#[warnings="-register-all"]
Inductive json : Type :=
  | JNull
  | JBool (b : bool)
  | JNumber (n : Z)
  | JString (s : string)
  | JArray (l : list json)
  | JObject (entries : list (string * json)).

Abbreviation RequestFilters := (gmap string (list json)) (only parsing).

Record RequestContext : Type := mkRequestContext {
  Type_ : string;
  Operation : string;
  TenantID : string;
  UserID : string;
  RequestID : string;
  IsAdmin : bool
}.

Record RequestData : Type := mkRequestData {
  ID : string;
  Fields : list string;
  Filters : RequestFilters
}.

Record Request : Type := mkRequest {
  Context_ : RequestContext;
  Data : RequestData
}.

Inductive LogEntry : Type :=
  | LogCantHandleFilter (k : string) (v : json)
  | LogForwarding (url : string)
  | LogError (msg : string)
  | LogCode (code : nat)
  | LogCopyFailed
  | LogReadFailed (err : string)
  | LogParseFailed (body err : string)
  | LogRequest (req : Request)
  | LogHandlerError (err : string)
  | LogResponse (res : string).

(** *** Filter decoding *)

(** [for fk, fv := range v.(map[string]interface{})
      { f[fk] = fv.([]interface{}) }]:
    the type assertion has no second result, so it panics on a value that
    is not a list. *)
Fixpoint promoteInner (inner : list (string * json)) (f : RequestFilters)
  : outcome RequestFilters :=
  match inner with
  | [] => Returned f
  | (fk, fv) :: rest =>
      match fv with
      | JArray l => promoteInner rest (<[fk := l]> f)
      | _ => Panicked "interface conversion: interface {} is not []interface {}"
      end
  end.

(** [for k, v := range filters { switch v.(type) ... }] *)
Fixpoint rangeFilters (filters : list (string * json))
    (f : RequestFilters) (logged : list LogEntry)
  : outcome (RequestFilters * list LogEntry) :=
  match filters with
  | [] => Returned (f, logged)
  | (k, v) :: rest =>
      match v with
      | JObject inner =>
          match promoteInner inner f with
          | Returned f' => rangeFilters rest f' logged
          | Panicked msg => Panicked msg
          end
      | JArray l => rangeFilters rest (<[k := l]> f) logged
      | _ => rangeFilters rest f (logged ++ [LogCantHandleFilter k v])
      end
  end.

Section Filters.
(** [json.Unmarshal(data, &filters)] into a [map[string]interface{}]:
    [None] is a decoding error, otherwise the entries of the map in the
    order the following [range] yields them. *)
Variable jsonUnmarshalMap : string → option (list (string * json)).

(** [RequestFilters.UnmarshalJSON]: the returned error (always [nil]),
    the receiver [f] after the call and the log. *)
Definition UnmarshalJSON (data : string) (f : RequestFilters)
    (logged : list LogEntry)
  : outcome (option string * RequestFilters * list LogEntry) :=
  match jsonUnmarshalMap data with
  | None => Returned (None, f, logged)
  | Some filters =>
      match rangeFilters filters f logged with
      | Returned (f', logged') => Returned (None, f', logged')
      | Panicked msg => Panicked msg
      end
  end.
End Filters.

(** *** HTTP *)

Abbreviation HttpHeader := (gmap string (list string)) (only parsing).

(** An [io.Reader]: the bytes it yields, then end of file or an error. *)
Record Reader : Type := mkReader {
  content : string;
  failure : option string
}.

(** [bytes.NewReader(body)] *)
Definition NewReader (body : string) : Reader := mkReader body None.

(** [ioutil.ReadAll] *)
Definition ReadAll (r : Reader) : string * option string :=
  (content r, failure r).

(** The inbound [*http.Request]. *)
Module Inbound.
Record t : Type := mk {
  Method : string;
  URLPath : string;
  Header : HttpHeader;
  Body : Reader
}.
End Inbound.

(** The [*http.Request] built by [http.NewRequest]. *)
Module Outbound.
Record t : Type := mk {
  Method : string;
  URL : string;
  Header : HttpHeader;
  Body : Reader
}.
End Outbound.

(** The [*http.Response] of the upstream service. *)
Module Response.
Record t : Type := mk {
  Header : HttpHeader;
  StatusCode : nat;
  Body : Reader
}.
End Response.

(** The [http.ResponseWriter]: the header map, the status line once it is
    written (with the headers as they were at that moment) and the body
    written so far. *)
Module ResponseWriter.
Record t : Type := mk {
  Header : HttpHeader;
  wroteHeader : option (nat * HttpHeader);
  written : string
}.

(** The writer the server hands to the handler. *)
Definition fresh : t := mk ∅ None "".

Definition setHeader (h : HttpHeader) (w : t) : t :=
  mk h (wroteHeader w) (written w).

Definition WriteHeader (code : nat) (w : t) : t :=
  match wroteHeader w with
  | Some _ => w
  | None => mk (Header w) (Some (code, Header w)) (written w)
  end.

Definition Write (data : string) (w : t) : t :=
  let w := WriteHeader 200 w in
  mk (Header w) (wroteHeader w) (written w +:+ data).
End ResponseWriter.

Section Gateway.
(** [T], [O]: as in the backend; [U] is the state of the upstream
    service. *)
Context {T O U : Type}.

(** [textproto.CanonicalMIMEHeaderKey] *)
Variable CanonicalHeaderKey : string → string.
(** The error of [http.NewRequest] for an URL, if any. *)
Variable newRequestError : string → option string.
(** [a.contrailClient.Do] *)
Variable clientDo : Outbound.t → U → (Response.t + string) * U.
(** [json.Unmarshal(body, &req)]; the filters it fills are decoded by
    [UnmarshalJSON]. *)
Variable unmarshalRequest : string → Request → outcome (Request + string).
(** The entries a [range] over a map yields, in the order of that run. *)
Variable mapRange : ∀ V : Type, gmap string V → list (string * V).

(** Everything a request handler reads or writes besides the response
    writer: the gremlin backend, the upstream service, the requests sent
    to it so far (oldest first) and the logger. *)
Record AppState : Type := mkAppState {
  world : Gremlin.World (T := T) (O := O);
  upstream : U;
  forwarded : list Outbound.t;
  logged : list LogEntry
}.

Definition N (A : Type) : Type := AppState → A * AppState.
#[local] Instance N_ret : MRet N := λ A a s, (a, s).
#[local] Instance N_bind : MBind N :=
  λ A B k m s, let '(a, s') := m s in k a s'.

Definition log (e : LogEntry) : N unit :=
  λ s, (tt, mkAppState (world s) (upstream s) (forwarded s)
              (logged s ++ [e])).

(** [a.backend.IsConnected()] *)
Definition backendIsConnected : N bool :=
  λ s, (Gremlin.connected (Gremlin.backend (world s)), s).

(** [a.contrailClient.Do(req)] *)
Definition contrailClientDo (req : Outbound.t)
  : N (Response.t + string) :=
  λ s,
    let '(res, u) := clientDo req (upstream s) in
    (res, mkAppState (world s) u (forwarded s ++ [req]) (logged s)).

Record App : Type := mkApp {
  contrailAPIURL : string;
  methods : gmap string (Request → N (string + string))
}.

(** [http.Header.Add] *)
Definition headerAdd (k v : string) (h : HttpHeader) : HttpHeader :=
  let k := CanonicalHeaderKey k in
  <[k := h !!! k ++ [v]]> h.

(** [http.Header.Set] *)
Definition headerSet (k v : string) (h : HttpHeader) : HttpHeader :=
  <[CanonicalHeaderKey k := [v]]> h.

Definition copyHeaders (src dst : HttpHeader) : HttpHeader :=
  fold_left
    (λ dst (kvv : string * list string),
       fold_left (λ dst v, headerAdd kvv.1 v dst) kvv.2 dst)
    (mapRange _ src) dst.

(** [http.Error] *)
Definition httpError (w : ResponseWriter.t) (error : string) (code : nat)
  : ResponseWriter.t :=
  let h := ResponseWriter.Header w in
  let h := headerSet "Content-Type" "text/plain; charset=utf-8" h in
  let h := headerSet "X-Content-Type-Options" "nosniff" h in
  let w := ResponseWriter.setHeader h w in
  let w := ResponseWriter.WriteHeader code w in
  ResponseWriter.Write (error +:+ String "010"%char "") w.

(** [http.NewRequest(method, url, body)] *)
Definition NewRequest (method url : string) (body : Reader)
  : Outbound.t + string :=
  match newRequestError url with
  | Some err => inr err
  | None => inl (Outbound.mk method url ∅ body)
  end.

(** [io.Copy(w, resp.Body)]: what the reader yields is written; the
    error, if any, is the reader's. *)
Definition ioCopy (w : ResponseWriter.t) (src : Reader)
  : ResponseWriter.t * option string :=
  (if decide (content src = "") then w
   else ResponseWriter.Write (content src) w,
   failure src).

Definition StatusBadRequest : nat := 400.
Definition StatusInternalServerError : nat := 500.
Definition StatusServiceUnavailable : nat := 503.

Definition forward (a : App) (w : ResponseWriter.t) (r : Inbound.t)
    (body : Reader) : N ResponseWriter.t :=
  let url := contrailAPIURL a +:+ Inbound.URLPath r in
  log (LogForwarding url) ;;
  match NewRequest "POST" url body with
  | inr err =>
      log (LogError err) ;;
      mret (httpError w err StatusServiceUnavailable)
  | inl req =>
      let req :=
        Outbound.mk (Outbound.Method req) (Outbound.URL req)
          (copyHeaders (Inbound.Header r) (Outbound.Header req))
          (Outbound.Body req) in
      res ← contrailClientDo req ;
      match res with
      | inr err =>
          log (LogError err) ;;
          mret (httpError w err StatusServiceUnavailable)
      | inl resp =>
          let w :=
            ResponseWriter.setHeader
              (copyHeaders (Response.Header resp) (ResponseWriter.Header w))
              w in
          log (LogCode (Response.StatusCode resp)) ;;
          let w := ResponseWriter.WriteHeader (Response.StatusCode resp) w in
          let '(w, err) := ioCopy w (Response.Body resp) in
          match err with
          | Some err =>
              log LogCopyFailed ;;
              mret (httpError w err StatusInternalServerError)
          | None => mret w
          end
      end
  end.

(** [fmt.Sprintf("%s_%s", req.Context.Operation, req.Context.Type)] *)
Definition methodKey (req : Request) : string :=
  Operation (Context_ req) +:+ "_" +:+ Type_ (Context_ req).

(** [handler]; a panic while decoding leaves the handler without a
    response. *)
Definition handler (a : App) (w : ResponseWriter.t) (r : Inbound.t)
  : N (outcome ResponseWriter.t) :=
  c ← backendIsConnected ;
  if negb c then
    w ← forward a w r (Inbound.Body r) ; mret (Returned w)
  else
    let '(body, err) := ReadAll (Inbound.Body r) in
    match err with
    | Some err =>
        log (LogReadFailed err) ;;
        mret (Returned (httpError w err StatusBadRequest))
    | None =>
        let req :=
          mkRequest (mkRequestContext "" "" "" "" "" false)
            (mkRequestData "" [] ∅) in
        match unmarshalRequest body req with
        | Panicked msg => mret (Panicked msg)
        | Returned (inr err) =>
            log (LogParseFailed body err) ;;
            mret (Returned (httpError w err StatusBadRequest))
        | Returned (inl req) =>
            log (LogRequest req) ;;
            match methods a !! methodKey req with
            | Some handler =>
                res ← handler req ;
                match res with
                | inr err =>
                    log (LogHandlerError err) ;;
                    let w := ResponseWriter.WriteHeader 500 w in
                    let w :=
                      ResponseWriter.setHeader
                        (headerSet "Content-Type"
                           "text/plain; charset=utf-8"
                           (ResponseWriter.Header w)) w in
                    mret (Returned (ResponseWriter.Write err w))
                | inl res =>
                    log (LogResponse res) ;;
                    let w :=
                      ResponseWriter.setHeader
                        (headerSet "Content-Type"
                           "application/json; charset=utf-8"
                           (ResponseWriter.Header w)) w in
                    mret (Returned (ResponseWriter.Write res w))
                end
            | None =>
                w ← forward a w r (NewReader body) ; mret (Returned w)
            end
        end
    end.

End Gateway.

(** *** Start-up *)

(** What [newApp] writes to the logger. *)
Inductive StartupLogEntry : Type :=
  | LogEnabling (implem : string)
  | LogNotAvailable (implem : string).

Section Startup.
Context {T O U : Type}.

Local Abbreviation Method :=
  (Request → N (T := T) (O := O) (U := U) (string + string)).

(** [for _, implem := range implems { if method, ok := allImplems[implem];
    ok { a.methods[implem] = method ... } else { ... } }]: the dispatch
    table and what is logged. *)
Definition enableImplems (allImplems : gmap string Method)
    (implems : list string) : gmap string Method * list StartupLogEntry :=
  fold_left
    (λ '(methods, logged) implem,
       match allImplems !! implem with
       | Some method =>
           (<[implem := method]> methods, logged ++ [LogEnabling implem])
       | None => (methods, logged ++ [LogNotAvailable implem])
       end)
    implems (∅, []).

(** [newApp] up to the call of [StartAsync], which starts the connection
    loop of the client: the application, the state it starts from and
    what is logged.  [c] is the client [gremlin.NewClient] returns, the
    first two arguments are the registrations of [NewServerBackend]
    with it, [o] and [u] are the states of the observers and of the
    upstream service, and the two handlers are [a.onGremlinConnect] and
    [a.onGremlinDisconnect]. *)
Definition newApp (clientAddConnectedHandler : T → T)
    (clientAddDisconnectedHandler : T → T)
    (allImplems : gmap string Method) (c : T)
    (onGremlinConnect : O → O)
    (onGremlinDisconnect : option Gremlin.client_error → O → O)
    (o : O) (u : U) (contrailAPISrv : string) (implems : list string)
  : App * AppState * list StartupLogEntry :=
  let '(methods, logged) := enableImplems allImplems implems in
  let a := mkApp ("http://" +:+ contrailAPISrv) methods in
  let w :=
    Gremlin.mkWorld
      (Gremlin.NewServerBackend clientAddConnectedHandler
         clientAddDisconnectedHandler c) [] [] o in
  let '(_, w) := Gremlin.AddConnectedHandler onGremlinConnect w in
  let '(_, w) := Gremlin.AddDisconnectedHandler onGremlinDisconnect w in
  (a, mkAppState w u [] [], logged).
End Startup.

End Neutron.

(** * Specification-side definitions *)

(** The definitions of this part follow the wording of the specification;
    the properties below compare them with the functions embedded above. *)

Module Spec.
Import Gremlin.

(** Concatenation of a list of fragments. *)
Definition joinStrings (l : list string) : string :=
  foldr String.append "" l.

(** The property-set fragment of the value at index [i] of a vertex
    property named [propName] that has [n] values: bound to the synthetic
    parameter name, and marked list-cardinality exactly when [n > 1]. *)
Definition vertexFragment (propName : string) (n i : nat) : string :=
  ".property(" +:+ (if decide (1 < n) then "list," else "")
  +:+ ("'" +:+ propName +:+ "',") +:+ vertexBindName propName i +:+ ")".

(** The property-set fragment of an edge property. *)
Definition edgeFragment (propName : string) : string :=
  ".property(" +:+ ("'" +:+ propName +:+ "',")
  +:+ edgeBindName propName +:+ ")".

(** [s] with every dot replaced by an underscore. *)
Definition underscored (s : string) : string :=
  String.string_of_list_ascii
    ((λ c : ascii, if decide (c = "."%char) then "_"%char else c)
       <$> String.list_ascii_of_string s).

(** The synthetic parameter name of the value at index [i] of the vertex
    property [p]: an underscore, [p] with its dots replaced by underscores,
    an underscore and [i] in decimal. *)
Definition vertexParam (p : string) (i : nat) : string :=
  "_" +:+ underscored p +:+ "_" +:+ pretty i.

(** The synthetic parameter name of the edge property [p]: an underscore
    and [p] with its dots replaced by underscores. *)
Definition edgeParam (p : string) : string := "_" +:+ underscored p.

(** The property-set fragment of the value at index [i] of the vertex
    property [p] that has [n] values: the name [p] as it is, the parameter
    [vertexParam p i], and the list marker exactly when [n > 1]. *)
Definition vertexSetFragment (p : string) (n i : nat) : string :=
  ".property(" +:+ (if decide (1 < n) then "list," else "")
  +:+ "'" +:+ p +:+ "'," +:+ vertexParam p i +:+ ")".

(** The property-set fragment of the edge property [p]. *)
Definition edgeSetFragment (p : string) : string :=
  ".property(" +:+ "'" +:+ p +:+ "'," +:+ edgeParam p +:+ ")".

(** Strictly increasing in the lexicographic order. *)
Definition lexSorted (names : list string) : Prop :=
  StronglySorted (λ a b, strLess a b = true) names.

(** *** What the query generators emit *)

(** Bindings written one after the other: a later one replaces an earlier
    one of the same name. *)
Definition bindAll (kvs : list (string * value)) (b : gmap string value)
  : gmap string value :=
  fold_left (λ b kv, <[kv.1 := kv.2]> b) kvs b.

(** What the inner loop emits for the values of [propName] from index
    [i] on: name, index and value. *)
Fixpoint emitValues (propName : string) (i : nat) (values : list Property)
  : list (string * nat * Property) :=
  match values with
  | [] => []
  | v :: values' => (propName, i, v) :: emitValues propName (S i) values'
  end.

Definition emission (propList : gmap string (list Property))
    (names : list string) : list (string * nat * Property) :=
  names ≫= λ p, emitValues p 0 (propList !!! p).

Definition emittedFragment (propList : gmap string (list Property))
    (e : string * nat * Property) : string :=
  vertexFragment e.1.1 (length (propList !!! e.1.1)) e.1.2.

Definition emittedBinding (e : string * nat * Property) : string * value :=
  (vertexBindName e.1.1 e.1.2, Value e.2).

Definition runEmission (propList : gmap string (list Property))
    (em : list (string * nat * Property)) (st : string * gmap string value)
  : string * gmap string value :=
  (st.1 +:+ joinStrings (emittedFragment propList <$> em),
   bindAll (emittedBinding <$> em) st.2).

Definition nonNil (kv : string * Property) : Prop := Value kv.2 ≠ VNil.

#[global] Instance nonNil_dec kv : Decision (nonNil kv).
Proof. unfold nonNil. apply _. Defined.

Definition edgeBinding (propList : gmap string Property) (p : string)
  : string * value :=
  (edgeBindName p, Value (propList !!! p)).

(** *** Edge reconciliation *)

(** The identity of an edge: (source id, destination id, label). *)
Definition identity (e : Edge.t) : string * string * string :=
  (Edge.OutV e, Edge.InV e, Edge.Label e).

(** The identity of [e] is present in [edges]. *)
Definition present (e : Edge.t) (edges : list Edge.t) : Prop :=
  identity e ∈ identity <$> edges.

#[global] Instance present_dec e edges : Decision (present e edges).
Proof. unfold present. apply _. Defined.

(** Some edge of [current] has the identity of [d] and a property map that
    is not equal to that of [d]. *)
Definition differs (d : Edge.t) (current : list Edge.t) : Prop :=
  Exists
    (λ c, identity c = identity d ∧ Edge.Properties c ≠ Edge.Properties d)
    current.

#[global] Instance differs_dec d current : Decision (differs d current).
Proof. unfold differs. apply _. Defined.

Definition ToAdd (desired current : list Edge.t) : list Edge.t :=
  filter (λ d, ¬ present d current) desired.

Definition ToUpdate (desired current : list Edge.t) : list Edge.t :=
  filter (λ d, differs d current) desired.

Definition ToRemove (desired current : list Edge.t) : list Edge.t :=
  filter (λ c, ¬ present c desired) current.

(** The first edge of [current] that has the identity of [d]. *)
Definition matched (d : Edge.t) (current : list Edge.t) : option Edge.t :=
  snd <$> list_find (λ c, identity c = identity d) current.

(** [d] has a match in [current] whose property map is not equal to that
    of [d]. *)
Definition differsFromMatch (d : Edge.t) (current : list Edge.t) : Prop :=
  match matched d current with
  | Some c => Edge.Properties c ≠ Edge.Properties d
  | None => False
  end.

#[global] Instance differsFromMatch_dec d current :
  Decision (differsFromMatch d current).
Proof. unfold differsFromMatch. destruct (matched d current); apply _. Defined.

Section Reconciliation.
Context {T O : Type}.

(** The operations of [ops] run one after the other from [w] to [w'],
    and each of them returns without an error. *)
Inductive allSucceed
  : list (M (T := T) (O := O) (option error)) → World → World → Prop :=
  | allSucceed_nil w : allSucceed [] w w
  | allSucceed_cons op ops w w1 w2 :
      op w = (None, w1) → allSucceed ops w1 w2 →
      allSucceed (op :: ops) w w2.

Variable clientSend : Request → T → (string + client_error) * T.
Implicit Types w : World (T := T) (O := O).
Implicit Types op : M (T := T) (O := O) (option error).

(** The world after a request went to the client that answered with the
    client state [c]. *)
Definition afterSend (req : Request) (c : T) w : World :=
  mkWorld
    (mkServerBackend c (connected (backend w))
       (connectedHandlers (backend w)) (disconnectedHandlers (backend w)))
    (sent w ++ [req]) (logged w) (observed w).

(** An operation that hands exactly one request to the client and returns
    what the client answered: no error, or the error of the client. *)
Definition oneCall op : Prop :=
  ∀ w, ∃ req,
    sent (op w).2 = sent w ++ [req]
    ∧ connected (backend (op w).2) = connected (backend w)
    ∧ (op w).1 = errOf (clientSend req (client (backend w))).1.

(** No error, or an error that comes from the client. *)
Definition fromClient (err : option error) : Prop :=
  err ≠ Some ErrIncompleteVertex.

End Reconciliation.

(** *** Fallback forwarding *)

Section Fallback.
Import Neutron.
Context {T O U : Type}.
Variable CanonicalHeaderKey : string → string.
Variable unmarshalRequest : string → Request → outcome (Request + string).
Variable mapRange : ∀ V : Type, gmap string V → list (string * V).

Implicit Types s : AppState (T := T) (O := O) (U := U).
Implicit Types a : App (T := T) (O := O) (U := U).

(** The request [forward] builds. *)
Definition forwardedRequest a (r : Inbound.t) (body : Reader)
  : Outbound.t :=
  Outbound.mk "POST" (contrailAPIURL a +:+ Inbound.URLPath r)
    (copyHeaders CanonicalHeaderKey mapRange (Inbound.Header r) ∅) body.

(** The request takes the fallback path: the backend is disconnected,
    or the body is read and decoded and no handler is registered for
    its (operation, resource type) key. *)
Definition fallbackTaken a (r : Inbound.t) s : Prop :=
  Gremlin.connected (Gremlin.backend (world s)) = false
  ∨ (Gremlin.connected (Gremlin.backend (world s)) = true
     ∧ failure (Inbound.Body r) = None
     ∧ ∃ req,
         unmarshalRequest (content (Inbound.Body r))
           (mkRequest (mkRequestContext "" "" "" "" "" false)
              (mkRequestData "" [] ∅))
         = Returned (inl req)
         ∧ methods a !! methodKey req = None).

End Fallback.

End Spec.

(** * Sample collaborators *)

(** Collaborators and data for the worked instances of the properties. *)
Module Sample.
Import Gremlin.

(** A [range] that yields the entries in the order of [map_to_list]. *)
Definition mapRange (V : Type) (m : gmap string V) : list (string * V) :=
  map_to_list m.

(** A client that answers every request with the same bytes. *)
Definition sendOk (data : string) (req : Request) (c : unit)
  : (string + client_error) * unit := (inl data, c).

(** A client whose every submission times out. *)
Definition sendTimeout (req : Request) (c : unit)
  : (string + client_error) * unit := (inr (ErrConnection "timeout"), c).

Definition world (isConnected : bool) : World (T := unit) (O := unit) :=
  mkWorld (mkServerBackend tt isConnected [] []) [] [] tt.

Definition edgeAB (properties : gmap string Property) : Edge.t :=
  Edge.mk "A" "" "B" "" "ref" properties.

Definition edgeAC : Edge.t := Edge.mk "A" "" "C" "" "ref" ∅.

Definition vertexA (label : string) : Vertex.t :=
  Vertex.mk "A" label ∅
    {[ "ref" := [edgeAB {[ "p" := mkProperty (VNum 2) ]}; edgeAC] ]} ∅.

End Sample.

Module SampleGateway.
Import Neutron.

(** Header keys that are canonical already. *)
Definition canonical (k : string) : string := k.

(** Every URL is accepted by [http.NewRequest]. *)
Definition noURLError (url : string) : option string := None.

(** An upstream service that answers every request with [resp]. *)
Definition upstreamAnswers (resp : Response.t) (req : Outbound.t) (u : unit)
  : (Response.t + string) * unit := (inl resp, u).

(** A request decoder that yields [req] for every body. *)
Definition decodesTo (req : Request) (body : string) (r0 : Request)
  : outcome (Request + string) := Returned (inl req).

(** A decoder of filter maps that yields [entries] for every input. *)
Definition filtersDecodeTo (entries : list (string * json)) (data : string)
  : option (list (string * json)) := Some entries.

Definition app : App (T := unit) (O := unit) (U := unit) :=
  mkApp "http://localhost:8082" ∅.

Definition state (isConnected : bool)
  : AppState (T := unit) (O := unit) (U := unit) :=
  mkAppState (Sample.world isConnected) tt [] [].

Definition getPorts : Inbound.t :=
  Inbound.mk "GET" "/neutron/port" {[ "Accept" := ["*/*"] ]} (NewReader "").

Definition okResponse : Response.t :=
  Response.mk {[ "Content-Type" := ["application/json"] ]} 200
    (NewReader "[]").

End SampleGateway.

(** * Definitions for the further properties *)

#[global] Instance Edge_eq_dec : EqDecision Gremlin.Edge.t.
Proof. solve_decision. Defined.

(** The string holds no dot. *)
Definition noDot (s : string) : Prop :=
  "."%char ∉ String.list_ascii_of_string s.

Module FilterSpec.
Import Neutron.

(** The value is a list. *)
Definition isArray (v : json) : Prop :=
  match v with JArray _ => True | _ => False end.

#[global] Instance isArray_dec v : Decision (isArray v).
Proof. destruct v; apply _. Defined.

(** The value is neither a list nor an object. *)
Definition isScalar (v : json) : Prop :=
  match v with JArray _ | JObject _ => False | _ => True end.

#[global] Instance isScalar_dec v : Decision (isScalar v).
Proof. destruct v; apply _. Defined.

(** Every value nested in the object [v] is a list; this holds of a value
    that is not an object. *)
Definition nestedLists (v : json) : Prop :=
  match v with
  | JObject inner => Forall (λ fkv, isArray fkv.2) inner
  | _ => True
  end.

#[global] Instance nestedLists_dec v : Decision (nestedLists v).
Proof. destruct v; apply _. Defined.

(** Every value nested in an object of the filter map is a list. *)
Definition nestedAreLists (filters : list (string * json)) : Prop :=
  Forall (λ kv, nestedLists kv.2) filters.

#[global] Instance nestedAreLists_dec filters :
  Decision (nestedAreLists filters).
Proof. unfold nestedAreLists. apply _. Defined.

(** The entries of an object whose value is a list. *)
Definition arrayEntries (inner : list (string * json))
  : list (string * list json) :=
  omap (λ fkv, match fkv.2 with
               | JArray l => Some (fkv.1, l)
               | _ => None
               end)
    inner.

(** The filters a decoded filter map gives, in the order of the map: a
    list under its own key, the lists nested in an object under their
    nested keys, nothing for any other value. *)
Definition filterWrites (filters : list (string * json))
  : list (string * list json) :=
  filters ≫= λ kv,
    match kv.2 with
    | JArray l => [(kv.1, l)]
    | JObject inner => arrayEntries inner
    | _ => []
    end.

(** The log entries for the values that are neither lists nor objects. *)
Definition unhandled (filters : list (string * json)) : list LogEntry :=
  (λ kv, LogCantHandleFilter kv.1 kv.2)
    <$> filter (λ kv, isScalar kv.2) filters.

End FilterSpec.

(** Collaborators that fail, for the worked instances. *)
Module SampleFailures.
Import Neutron.

(** [http.NewRequest] rejects every URL. *)
Definition rejectURL (url : string) : option string := Some "invalid URL".

(** An upstream service that cannot be reached. *)
Definition upstreamDown (req : Outbound.t) (u : unit)
  : (Response.t + string) * unit := (inr "connection refused", u).

(** A response whose body breaks off after [partial]. *)
Definition brokenResponse (partial : string) : Response.t :=
  Response.mk ∅ 200 (mkReader partial (Some "unexpected EOF")).

(** A request decoder that rejects every body. *)
Definition rejects (body : string) (r0 : Request)
  : outcome (Request + string) := Returned (inr "invalid character").

(** A method that answers every request with an empty list. *)
Definition listsNothing (req : Request)
    (s : AppState (T := unit) (O := unit) (U := unit))
  : (string + string) * AppState (T := unit) (O := unit) (U := unit) :=
  (inl "[]", s).

Definition portRequest : Request :=
  mkRequest (mkRequestContext "port" "READALL" "" "" "" false)
    (mkRequestData "" [] ∅).

Definition appWithPorts : App (T := unit) (O := unit) (U := unit) :=
  mkApp "http://localhost:8082" {[ "READALL_port" := listsNothing ]}.

End SampleFailures.
(** * Properties *)

Import Gremlin.
Import Spec.

(** ** Strings and the stable sort *)

Lemma string_app_assoc (s1 s2 s3 : string) :
  (s1 +:+ s2) +:+ s3 = s1 +:+ (s2 +:+ s3).
Proof.
  induction s1 as [|c s1 IH]; [reflexivity|].
  change (String c ((s1 +:+ s2) +:+ s3) = String c (s1 +:+ (s2 +:+ s3))).
  by rewrite IH.
Qed.

Lemma string_app_nil_r (s : string) : s +:+ "" = s.
Proof.
  induction s as [|c s IH]; [reflexivity|].
  change (String c (s +:+ "") = String c s). by rewrite IH.
Qed.

(** [a] is not above [b] exactly when [b < a] is false. *)
Lemma strLess_false_le (a b : string) : strLess b a = false ↔ String.le a b.
Proof.
  unfold strLess, String.le, String.ltb, String.leb.
  rewrite (String.compare_antisym b a).
  destruct (String.compare a b); simpl; naive_solver.
Qed.

Lemma strLess_true_lt (a b : string) :
  strLess a b = true ↔ String.le a b ∧ a ≠ b.
Proof.
  unfold strLess, String.le, String.ltb, String.leb.
  pose proof (String.compare_eq_iff a b) as Heq.
  destruct (String.compare a b) eqn:E; simpl.
  - split; [done|]. intros [_ Hne]. destruct Hne. by apply Heq.
  - split; [|done]. intros _. split; [done|]. intros Hab. subst b.
    pose proof (String.compare_antisym a a) as Hanti.
    rewrite E in Hanti. discriminate.
  - split; [done|]. intros [[] _].
Qed.

Section SliceStableFacts.
Implicit Types l : list string.

Lemma insertStable_Permutation x l : insertStable strLess x l ≡ₚ x :: l.
Proof.
  induction l as [|y l IH]; simpl; [done|].
  destruct (strLess y x); [|done].
  rewrite IH. apply Permutation_swap.
Qed.

Lemma SliceStable_Permutation l : SliceStable strLess l ≡ₚ l.
Proof.
  induction l as [|x l IH]; simpl; [done|].
  by rewrite insertStable_Permutation, IH.
Qed.

Lemma insertStable_Sorted x l :
  Sorted String.le l → Sorted String.le (insertStable strLess x l).
Proof.
  induction 1 as [|y l Hs IH Hhd]; simpl.
  - by repeat constructor.
  - destruct (strLess y x) eqn:E.
    + constructor; [done|].
      apply strLess_true_lt in E as [Hle _].
      destruct l as [|z l]; simpl in *.
      * by constructor.
      * inversion_clear Hhd. destruct (strLess z x); by constructor.
    + apply strLess_false_le in E. by repeat constructor.
Qed.

Lemma SliceStable_Sorted l : Sorted String.le (SliceStable strLess l).
Proof.
  induction l as [|x l IH]; simpl; [constructor|].
  by apply insertStable_Sorted.
Qed.

(** The sorted list depends on the elements only, not on their order. *)
Lemma SliceStable_unique l1 l2 :
  l1 ≡ₚ l2 → SliceStable strLess l1 = SliceStable strLess l2.
Proof.
  intros Hp. apply (Sorted_unique String.le); try apply SliceStable_Sorted.
  by rewrite !SliceStable_Permutation.
Qed.

Lemma StronglySorted_le_strict l :
  NoDup l → StronglySorted String.le l →
  StronglySorted (λ a b, strLess a b = true) l.
Proof.
  intros Hnd Hs. induction Hs as [|x l Hs IH Hall]; [constructor|].
  apply NoDup_cons in Hnd as [Hx Hnd].
  constructor; [by apply IH|].
  apply Forall_forall. intros y Hy. apply strLess_true_lt. split.
  - by eapply Forall_forall in Hall.
  - by intros ->.
Qed.

(** Without duplicates the sorted list is strictly increasing. *)
Lemma SliceStable_strict l :
  NoDup l →
  StronglySorted (λ a b, strLess a b = true) (SliceStable strLess l).
Proof.
  intros Hnd. apply StronglySorted_le_strict.
  - by rewrite SliceStable_Permutation.
  - apply Sorted_StronglySorted; [apply _|apply SliceStable_Sorted].
Qed.
End SliceStableFacts.

(** ** The property query generators *)

Section Generators.

Lemma bindAll_lookup_inv kvs b k x :
  bindAll kvs b !! k = Some x → b !! k = Some x ∨ (k, x) ∈ kvs.
Proof.
  revert b. induction kvs as [|[k' x'] kvs IH]; intros b; simpl; [by left|].
  intros H. apply IH in H as [H|H]; [|right; by right].
  destruct (decide (k' = k)) as [->|Hne].
  - rewrite lookup_insert_eq in H. injection H as ->. right; by left.
  - rewrite lookup_insert_ne in H by done. by left.
Qed.

Lemma bindAll_is_Some kvs b k :
  is_Some (bindAll kvs b !! k) ↔ is_Some (b !! k) ∨ k ∈ kvs.*1.
Proof.
  revert b. induction kvs as [|[k' x'] kvs IH]; intros b; simpl.
  - rewrite elem_of_nil. naive_solver.
  - rewrite IH, elem_of_cons. rewrite lookup_insert_is_Some. simpl.
    destruct (decide (k' = k)); naive_solver.
Qed.

(** A name written with one value only is bound to that value. *)
Lemma bindAll_lookup kvs b k x :
  (k, x) ∈ kvs → (∀ y, (k, y) ∈ kvs → y = x) → bindAll kvs b !! k = Some x.
Proof.
  revert b. induction kvs as [|[k' x'] kvs IH]; intros b Hin Huniq; simpl.
  - by apply elem_of_nil in Hin.
  - destruct (decide ((k, x) ∈ kvs)) as [Hin'|Hnin].
    + apply IH; [done|]. intros y Hy. apply Huniq. by right.
    + apply elem_of_cons in Hin as [[= <- <-]|Hin]; [|done].
      destruct (bindAll kvs (<[k:=x]> b) !! k) as [y|] eqn:E.
      * apply bindAll_lookup_inv in E as [E|E].
        -- rewrite lookup_insert_eq in E. done.
        -- f_equal. apply Huniq. by right.
      * assert (is_Some (bindAll kvs (<[k:=x]> b) !! k)) as [? Hs].
        { apply bindAll_is_Some. left. rewrite lookup_insert_eq. eauto. }
        congruence.
Qed.

(** *** [vertexPropertiesQuery] *)

Lemma fillNames_replicate names pre :
  fillNames names (length pre) (pre ++ replicate (length names) "")
  = pre ++ names.
Proof.
  revert pre. induction names as [|n names IH]; intros pre; simpl.
  - done.
  - rewrite insert_app_r_alt by lia. rewrite Nat.sub_diag. simpl.
    rewrite (cons_middle n pre), app_assoc.
    replace (S (length pre)) with (length (pre ++ [n]))
      by (rewrite length_app; simpl; lia).
    rewrite IH. by rewrite <- app_assoc.
Qed.

Lemma joinStrings_app l1 l2 :
  joinStrings (l1 ++ l2) = joinStrings l1 +:+ joinStrings l2.
Proof.
  induction l1 as [|s l1 IH]; simpl; [done|].
  by rewrite IH, string_app_assoc.
Qed.

Lemma runEmission_app propList em1 em2 st :
  runEmission propList (em1 ++ em2) st
  = runEmission propList em2 (runEmission propList em1 st).
Proof.
  unfold runEmission. simpl. rewrite !fmap_app, joinStrings_app.
  rewrite string_app_assoc. f_equal. unfold bindAll. by rewrite fold_left_app.
Qed.

Lemma vertexPropertyStep_emission propList p i v st :
  vertexPropertyStep propList p i v st
  = runEmission propList [(p, i, v)] st.
Proof.
  destruct st as [buf b]. unfold vertexPropertyStep, runEmission. simpl.
  f_equal. unfold emittedFragment, vertexFragment. simpl.
  destruct (decide (1 < length (propList !!! p)));
    rewrite ?string_app_assoc, ?string_app_nil_r; reflexivity.
Qed.

Lemma vertexPropertyValues_emission propList p i vs st :
  vertexPropertyValues propList p i vs st
  = runEmission propList (emitValues p i vs) st.
Proof.
  revert i st. induction vs as [|v vs IH]; intros i st; simpl.
  - destruct st. unfold runEmission. simpl. by rewrite string_app_nil_r.
  - rewrite IH, vertexPropertyStep_emission.
    by rewrite <- runEmission_app.
Qed.

Lemma vertexNames_emission propList names st :
  fold_left
    (λ st p, vertexPropertyValues propList p 0 (propList !!! p) st)
    names st
  = runEmission propList (emission propList names) st.
Proof.
  revert st. induction names as [|p names IH]; intros st; simpl.
  - destruct st. unfold runEmission. simpl. by rewrite string_app_nil_r.
  - rewrite IH, vertexPropertyValues_emission.
    by rewrite <- runEmission_app.
Qed.

Lemma range_size {V} (iter : list (string * V)) (m : gmap string V) :
  iter ≡ₚ map_to_list m → length iter.*1 = size m.
Proof.
  intros Hp. rewrite length_fmap, Hp. by rewrite length_map_to_list.
Qed.

(** The names the generator walks through. *)
Lemma vertexPropertiesQuery_names iter propList :
  iter ≡ₚ map_to_list propList →
  vertexPropertiesQuery iter propList
  = runEmission propList
      (emission propList (SliceStable strLess iter.*1)) ("", ∅).
Proof.
  intros Hp. unfold vertexPropertiesQuery.
  rewrite <- (range_size iter propList Hp).
  pose proof (fillNames_replicate iter.*1 []) as Hfill.
  cbn [length app] in Hfill. rewrite Hfill.
  apply vertexNames_emission.
Qed.
End Generators.

Section GeneratorFacts.

Lemma elem_of_emitValues p i vs q j u :
  (q, j, u) ∈ emitValues p i vs
  ↔ q = p ∧ ∃ k, j = i + k ∧ vs !! k = Some u.
Proof.
  revert i. induction vs as [|v vs IH]; intros i; simpl.
  - rewrite elem_of_nil. split; [done|]. by intros (_ & k & _ & ?).
  - rewrite elem_of_cons, IH. split.
    + intros [[= -> -> ->]|(-> & k & -> & Hk)].
      * split; [done|]. exists 0. split; [lia|done].
      * split; [done|]. exists (S k). split; [lia|done].
    + intros (-> & [|k] & -> & Hk); simpl in Hk.
      * left. injection Hk as ->. f_equal. f_equal. lia.
      * right. split; [done|]. exists k. split; [lia|done].
Qed.

Lemma elem_of_emission propList names q j u :
  (q, j, u) ∈ emission propList names
  ↔ q ∈ names ∧ (propList !!! q) !! j = Some u.
Proof.
  unfold emission. rewrite list_elem_of_bind. split.
  - intros (p & Hin & Hp). apply elem_of_emitValues in Hin
      as (-> & k & -> & Hk). done.
  - intros [Hq Hj]. exists q. split; [|done].
    apply elem_of_emitValues. split; [done|]. by exists j.
Qed.

Lemma emitValues_fragments propList p i vs :
  emittedFragment propList <$> emitValues p i vs
  = imap (λ j _, vertexFragment p (length (propList !!! p)) (i + j)) vs.
Proof.
  revert i. induction vs as [|v vs IH]; intros i; [done|].
  cbn [emitValues fmap list_fmap]. rewrite imap_cons. f_equal.
  - unfold emittedFragment. simpl. by rewrite Nat.add_0_r.
  - fold (fmap (M := list) (emittedFragment propList)). rewrite IH.
    apply imap_ext. intros j x _. simpl. f_equal. lia.
Qed.

Lemma emission_fragments propList names :
  emittedFragment propList <$> emission propList names
  = names ≫= λ p,
      imap (λ i _, vertexFragment p (length (propList !!! p)) i)
        (propList !!! p).
Proof.
  unfold emission. induction names as [|p names IH]; [done|].
  rewrite !bind_cons, fmap_app, IH. f_equal.
  by rewrite emitValues_fragments.
Qed.

Lemma range_names {V} (iter : list (string * V)) (m : gmap string V) p :
  iter ≡ₚ map_to_list m → p ∈ iter.*1 ↔ is_Some (m !! p).
Proof.
  intros Hp. rewrite Hp. rewrite list_elem_of_fmap. split.
  - intros ([k v] & -> & Hin). apply elem_of_map_to_list in Hin. eauto.
  - intros [v Hv]. exists (p, v). split; [done|].
    by apply elem_of_map_to_list.
Qed.

Lemma range_NoDup {V} (iter : list (string * V)) (m : gmap string V) :
  iter ≡ₚ map_to_list m → NoDup iter.*1.
Proof. intros Hp. rewrite Hp. apply NoDup_fst_map_to_list. Qed.

Lemma lookup_total_list_Some {V} (m : gmap string (list V)) p i v :
  (m !!! p) !! i = Some v ↔ ∃ vs, m !! p = Some vs ∧ vs !! i = Some v.
Proof.
  rewrite lookup_total_alt. destruct (m !! p) as [vs|]; simpl.
  - split; [eauto|]. by intros (? & [= <-] & ?).
  - split; [|by intros (? & ? & ?)].
    intros H. by rewrite lookup_nil in H.
Qed.

(** *** [edgePropertiesQuery] *)

Lemma appendNonNil_filter iter acc :
  appendNonNil iter acc = acc ++ (filter nonNil iter).*1.
Proof.
  revert acc. induction iter as [|[k prop] iter IH]; intros acc; simpl.
  - by rewrite app_nil_r.
  - rewrite IH. destruct (decide (Value prop ≠ VNil)) as [Hn|Hn].
    + rewrite filter_cons_True by done. simpl. by rewrite <- app_assoc.
    + by rewrite filter_cons_False.
Qed.

Lemma edgeNames_fold propList names buf b :
  fold_left (edgePropertyStep propList) names (buf, b)
  = (buf +:+ joinStrings (edgeFragment <$> names),
     bindAll (edgeBinding propList <$> names) b).
Proof.
  revert buf b. induction names as [|p names IH]; intros buf b; simpl.
  - by rewrite string_app_nil_r.
  - rewrite IH. f_equal. unfold edgeFragment.
    by rewrite !string_app_assoc.
Qed.

Lemma edgePropertiesQuery_names iter propList :
  edgePropertiesQuery iter propList
  = (joinStrings
       (edgeFragment <$> SliceStable strLess (filter nonNil iter).*1),
     bindAll
       (edgeBinding propList
          <$> SliceStable strLess (filter nonNil iter).*1) ∅).
Proof.
  unfold edgePropertiesQuery. rewrite appendNonNil_filter.
  rewrite app_nil_l. by rewrite edgeNames_fold.
Qed.

Lemma edge_names_elem iter (propList : gmap string Property) p :
  iter ≡ₚ map_to_list propList →
  p ∈ SliceStable strLess (filter nonNil iter).*1
  ↔ ∃ prop, propList !! p = Some prop ∧ Value prop ≠ VNil.
Proof.
  intros Hp. rewrite SliceStable_Permutation, Hp, list_elem_of_fmap. split.
  - intros ([k prop] & -> & Hin). apply list_elem_of_filter in Hin as [Hnn Hin].
    apply elem_of_map_to_list in Hin. eauto.
  - intros (prop & Hprop & Hnn). exists (p, prop). split; [done|].
    apply list_elem_of_filter. split; [done|]. by apply elem_of_map_to_list.
Qed.

Lemma edge_names_NoDup iter (propList : gmap string Property) :
  iter ≡ₚ map_to_list propList → NoDup (filter nonNil iter).*1.
Proof.
  intros Hp. rewrite Hp.
  eapply NoDup_fmap_fst.
  - intros k x y Hx Hy. apply list_elem_of_filter in Hx as [_ Hx].
    apply list_elem_of_filter in Hy as [_ Hy].
    apply elem_of_map_to_list in Hx. apply elem_of_map_to_list in Hy.
    congruence.
  - apply NoDup_filter, NoDup_map_to_list.
Qed.
End GeneratorFacts.

(** Closes a decidable goal about concrete data by evaluation. *)
Ltac by_compute :=
  match goal with
  | |- ?P => apply (@bool_decide_unpack P _); vm_compute; exact I
  end.

Section GeneratorClaims.

(** C6.  Determinism of the property query generators: for two property
    maps that are equal as maps, whatever the order in which [range]
    yields their entries, [vertexPropertiesQuery] returns the same
    fragment and the same bindings, and so does [edgePropertiesQuery]. *)
Theorem property_queries_deterministic
    (vprops1 vprops2 : gmap string (list Property))
    (eprops1 eprops2 : gmap string Property)
    (vi1 vi2 : list (string * list Property))
    (ei1 ei2 : list (string * Property)) :
  (∀ name, vprops1 !! name = vprops2 !! name) →
  (∀ name, eprops1 !! name = eprops2 !! name) →
  vi1 ≡ₚ map_to_list vprops1 → vi2 ≡ₚ map_to_list vprops2 →
  ei1 ≡ₚ map_to_list eprops1 → ei2 ≡ₚ map_to_list eprops2 →
  vertexPropertiesQuery vi1 vprops1 = vertexPropertiesQuery vi2 vprops2
  ∧ edgePropertiesQuery ei1 eprops1 = edgePropertiesQuery ei2 eprops2.
Proof.
  intros Hv He Hv1 Hv2 He1 He2.
  apply map_eq in Hv as <-. apply map_eq in He as <-. split.
  - rewrite !vertexPropertiesQuery_names by done.
    rewrite (SliceStable_unique vi1.*1 vi2.*1); [done|].
    by rewrite Hv1, Hv2.
  - rewrite !edgePropertiesQuery_names.
    rewrite (SliceStable_unique (filter nonNil ei1).*1
               (filter nonNil ei2).*1); [done|].
    by rewrite He1, He2.
Qed.

Lemma property_queries_deterministic_witness :
  vertexPropertiesQuery
    [("b.c", [mkProperty (VNum 1); mkProperty (VNum 2)]);
     ("a", [mkProperty (VStr "x")])]
    (<["a" := [mkProperty (VStr "x")] ]>
       {["b.c" := [mkProperty (VNum 1); mkProperty (VNum 2)]]})
  = vertexPropertiesQuery
      [("a", [mkProperty (VStr "x")]);
       ("b.c", [mkProperty (VNum 1); mkProperty (VNum 2)])]
      (<["b.c" := [mkProperty (VNum 1); mkProperty (VNum 2)] ]>
         {["a" := [mkProperty (VStr "x")]]})
  ∧ edgePropertiesQuery
      [("z", mkProperty (VNum 1)); ("n", mkProperty VNil)]
      (<["n" := mkProperty VNil]> {["z" := mkProperty (VNum 1)]})
    = edgePropertiesQuery
        [("n", mkProperty VNil); ("z", mkProperty (VNum 1))]
        (<["z" := mkProperty (VNum 1)]> {["n" := mkProperty VNil]}).
Proof.
  apply property_queries_deterministic.
  - intros name; f_equal; vm_compute; reflexivity.
  - intros name; f_equal; vm_compute; reflexivity.
  - by_compute.
  - by_compute.
  - by_compute.
  - by_compute.
Defined.

(** What [vertexPropertiesQuery] emits, with the parameter names as the
    code builds them. *)
Lemma vertexPropertiesQuery_emitted
    (propList : gmap string (list Property))
    (iter : list (string * list Property)) :
  iter ≡ₚ map_to_list propList →
  ∃ names : list string,
    lexSorted names
    ∧ (∀ p, p ∈ names ↔ is_Some (propList !! p))
    ∧ (vertexPropertiesQuery iter propList).1
      = joinStrings
          (names ≫= λ p,
             imap (λ i _, vertexFragment p (length (propList !!! p)) i)
               (propList !!! p))
    ∧ (∀ p vs i v,
         propList !! p = Some vs → vs !! i = Some v →
         is_Some ((vertexPropertiesQuery iter propList).2
                    !! vertexBindName p i))
    ∧ (∀ k x,
         (vertexPropertiesQuery iter propList).2 !! k = Some x →
         ∃ p vs i v,
           propList !! p = Some vs ∧ vs !! i = Some v
           ∧ k = vertexBindName p i ∧ x = Value v)
    ∧ (∀ p vs i v,
         propList !! p = Some vs → vs !! i = Some v →
         (∀ q ws j u,
            propList !! q = Some ws → ws !! j = Some u →
            vertexBindName q j = vertexBindName p i → Value u = Value v) →
         (vertexPropertiesQuery iter propList).2 !! vertexBindName p i
         = Some (Value v)).
Proof.
  intros Hp. exists (SliceStable strLess iter.*1).
  assert (Hnames : ∀ p,
    p ∈ SliceStable strLess iter.*1 ↔ is_Some (propList !! p)).
  { intros p. rewrite SliceStable_Permutation. by apply range_names. }
  rewrite (vertexPropertiesQuery_names _ _ Hp).
  unfold runEmission. cbn [fst snd].
  set (names := SliceStable strLess iter.*1) in *.
  assert (Hem : ∀ p vs i v,
    propList !! p = Some vs → vs !! i = Some v →
    (vertexBindName p i, Value v)
      ∈ emittedBinding <$> emission propList names).
  { intros p vs i v Hvs Hv. apply list_elem_of_fmap.
    exists (p, i, v). split; [done|]. apply elem_of_emission. split.
    - apply Hnames. eauto.
    - apply lookup_total_list_Some. eauto. }
  assert (Hinv : ∀ k x,
    (k, x) ∈ emittedBinding <$> emission propList names →
    ∃ p vs i v, propList !! p = Some vs ∧ vs !! i = Some v
                ∧ k = vertexBindName p i ∧ x = Value v).
  { intros k x Hin. apply list_elem_of_fmap in Hin as ([[p i] v] & Heq & Hin).
    injection Heq as -> ->.
    apply elem_of_emission in Hin as [_ Hin].
    apply lookup_total_list_Some in Hin as (vs & Hvs & Hv).
    exists p, vs, i, v. done. }
  split; [|split; [done|split; [|split; [|split]]]].
  - apply SliceStable_strict. by eapply range_NoDup.
  - by rewrite emission_fragments.
  - intros p vs i v Hvs Hv. apply bindAll_is_Some. right.
    apply list_elem_of_fmap. exists (vertexBindName p i, Value v).
    split; [done|]. by eapply Hem.
  - intros k x Hk. apply bindAll_lookup_inv in Hk as [Hk|Hk].
    + by rewrite lookup_empty in Hk.
    + by apply Hinv.
  - intros p vs i v Hvs Hv Huniq. apply bindAll_lookup; [by eapply Hem|].
    intros y Hy. apply Hinv in Hy as (q & ws & j & u & Hws & Hu & Hk & ->).
    by eapply Huniq.
Qed.

(** What [edgePropertiesQuery] emits, with the parameter names as the
    code builds them. *)
Lemma edgePropertiesQuery_emitted
    (propList : gmap string Property)
    (iter : list (string * Property)) :
  iter ≡ₚ map_to_list propList →
  ∃ names : list string,
    lexSorted names ∧ NoDup names
    ∧ (∀ p, p ∈ names ↔
            ∃ prop, propList !! p = Some prop ∧ Value prop ≠ VNil)
    ∧ (edgePropertiesQuery iter propList).1
      = joinStrings (edgeFragment <$> names)
    ∧ (∀ p, p ∈ names →
            is_Some ((edgePropertiesQuery iter propList).2
                       !! edgeBindName p))
    ∧ (∀ k x,
         (edgePropertiesQuery iter propList).2 !! k = Some x →
         x ≠ VNil
         ∧ ∃ p prop, propList !! p = Some prop ∧ Value prop = x
                     ∧ k = edgeBindName p)
    ∧ (∀ p prop,
         propList !! p = Some prop → Value prop ≠ VNil →
         (∀ q prop',
            propList !! q = Some prop' → Value prop' ≠ VNil →
            edgeBindName q = edgeBindName p → Value prop' = Value prop) →
         (edgePropertiesQuery iter propList).2 !! edgeBindName p
         = Some (Value prop)).
Proof.
  intros Hp. exists (SliceStable strLess (filter nonNil iter).*1).
  pose proof (λ p, edge_names_elem iter propList p Hp) as Hnames.
  rewrite edgePropertiesQuery_names. cbn [fst snd].
  set (names := SliceStable strLess (filter nonNil iter).*1) in *.
  assert (Hnd : NoDup names).
  { unfold names. rewrite SliceStable_Permutation.
    by eapply edge_names_NoDup. }
  assert (Hinv : ∀ k x,
    (k, x) ∈ edgeBinding propList <$> names →
    x ≠ VNil ∧ ∃ p prop, propList !! p = Some prop ∧ Value prop = x
                         ∧ k = edgeBindName p).
  { intros k x Hin. apply list_elem_of_fmap in Hin as (p & Heq & Hin).
    injection Heq as -> ->.
    apply Hnames in Hin as (prop & Hprop & Hnn).
    rewrite (lookup_total_correct _ _ _ Hprop). eauto 6. }
  assert (Hem : ∀ p prop,
    propList !! p = Some prop → Value prop ≠ VNil →
    (edgeBindName p, Value prop) ∈ edgeBinding propList <$> names).
  { intros p prop Hprop Hnn. apply list_elem_of_fmap. exists p.
    unfold edgeBinding. rewrite (lookup_total_correct _ _ _ Hprop).
    split; [done|]. apply Hnames; eauto. }
  split; [|split; [done|split; [by apply Hnames|split; [done|]]]].
  - by apply SliceStable_strict, (edge_names_NoDup _ propList).
  - split; [|split].
    + intros p Hin. apply bindAll_is_Some. right.
      rewrite <- list_fmap_compose. apply list_elem_of_fmap. by exists p.
    + intros k x Hk. apply bindAll_lookup_inv in Hk as [Hk|Hk].
      * by rewrite lookup_empty in Hk.
      * by apply Hinv.
    + intros p prop Hprop Hnn Huniq. apply bindAll_lookup; [by apply Hem|].
      intros y Hy.
      apply Hinv in Hy as (Hy & q & prop' & Hq & <- & Hk).
      by eapply Huniq.
Qed.

(** *** The parameter names *)

Lemma ReplaceDots_underscored s : ReplaceDots s = underscored s.
Proof.
  unfold underscored. induction s as [|c s IH]; [done|].
  cbn [ReplaceDots String.list_ascii_of_string fmap list_fmap
       String.string_of_list_ascii].
  fold (fmap (M := list)
          (λ c : ascii, if decide (c = "."%char) then "_"%char else c)).
  rewrite <- IH. f_equal.
  destruct (Ascii.eqb_spec c ".") as [->|Hne]; [done|].
  by rewrite decide_False.
Qed.

Lemma vertexBindName_param p i : vertexBindName p i = vertexParam p i.
Proof. unfold vertexBindName, vertexParam. by rewrite ReplaceDots_underscored. Qed.

Lemma edgeBindName_param p : edgeBindName p = edgeParam p.
Proof. unfold edgeBindName, edgeParam. by rewrite ReplaceDots_underscored. Qed.

Lemma vertexFragment_set p n i :
  vertexFragment p n i = vertexSetFragment p n i.
Proof.
  unfold vertexFragment, vertexSetFragment.
  by rewrite vertexBindName_param, !string_app_assoc.
Qed.

Lemma edgeFragment_set p : edgeFragment p = edgeSetFragment p.
Proof.
  unfold edgeFragment, edgeSetFragment.
  by rewrite edgeBindName_param, !string_app_assoc.
Qed.

(** A set of names has one strictly increasing enumeration. *)
Lemma lexSorted_unique (l1 l2 : list string) :
  lexSorted l1 → lexSorted l2 → (∀ p, p ∈ l1 ↔ p ∈ l2) → l1 = l2.
Proof.
  assert (Hle : ∀ l, lexSorted l → StronglySorted String.le l ∧ NoDup l).
  { intros l Hs. induction Hs as [|x l Hs [IHs IHn] Hall].
    - split; constructor.
    - rewrite Forall_forall in Hall. split.
      + constructor; [done|]. apply Forall_forall. intros y Hy.
        by apply strLess_true_lt, Hall.
      + apply NoDup_cons. split; [|done]. intros Hx.
        apply Hall, strLess_true_lt in Hx as [_ Hne]. done. }
  intros [Hs1 Hn1]%Hle [Hs2 Hn2]%Hle Hmem.
  apply (StronglySorted_unique String.le); [done..|].
  by apply NoDup_Permutation.
Qed.

(** C7.  [vertexPropertiesQuery] walks through the property names in
    lexicographic order: for the strictly increasing list of the names
    of the map, which exists and is the only one, the fragment is the
    concatenation, name after name and value after value, of one
    property-set fragment for the value at index [i] of the property
    [p].  That fragment holds the name [p] as it is and the parameter
    named by an underscore, [p] with its dots replaced by underscores,
    an underscore and [i]; it is marked list-cardinality exactly when [p]
    has more than one value.  Every such parameter is bound, every
    binding is the value of some property under its parameter name, and
    a parameter name that no other value shares is bound to its value. *)
Theorem vertexPropertiesQuery_fragments
    (propList : gmap string (list Property))
    (iter : list (string * list Property)) :
  iter ≡ₚ map_to_list propList →
  (∃ names : list string,
     lexSorted names ∧ ∀ p, p ∈ names ↔ is_Some (propList !! p))
  ∧ ∀ names : list string,
      lexSorted names →
      (∀ p, p ∈ names ↔ is_Some (propList !! p)) →
      (vertexPropertiesQuery iter propList).1
      = joinStrings
          (names ≫= λ p,
             imap (λ i _,
                     vertexSetFragment p (length (propList !!! p)) i)
               (propList !!! p))
      ∧ (∀ p vs i v,
           propList !! p = Some vs → vs !! i = Some v →
           is_Some ((vertexPropertiesQuery iter propList).2
                      !! vertexParam p i))
      ∧ (∀ k x,
           (vertexPropertiesQuery iter propList).2 !! k = Some x →
           ∃ p vs i v,
             propList !! p = Some vs ∧ vs !! i = Some v
             ∧ k = vertexParam p i ∧ x = Value v)
      ∧ (∀ p vs i v,
           propList !! p = Some vs → vs !! i = Some v →
           (∀ q ws j u,
              propList !! q = Some ws → ws !! j = Some u →
              vertexParam q j = vertexParam p i → Value u = Value v) →
           (vertexPropertiesQuery iter propList).2 !! vertexParam p i
           = Some (Value v)).
Proof.
  intros Hp.
  destruct (vertexPropertiesQuery_emitted propList iter Hp)
    as (names0 & Hs0 & Hm0 & Hf & Hb & Hinv & Hval).
  split; [by exists names0|].
  intros names Hs Hm.
  assert (names = names0) as ->.
  { apply lexSorted_unique; [done..|]. intros p. by rewrite Hm, Hm0. }
  split; [|split; [|split]].
  - rewrite Hf. f_equal. apply list_bind_ext; [|done]. intros p.
    apply imap_ext. intros i v _. apply vertexFragment_set.
  - intros p vs i v Hvs Hv. rewrite <- vertexBindName_param. eauto.
  - intros k x Hk.
    destruct (Hinv k x Hk) as (p & vs & i & v & Hvs & Hv & -> & ->).
    exists p, vs, i, v. by rewrite vertexBindName_param.
  - intros p vs i v Hvs Hv Huniq. rewrite <- vertexBindName_param.
    apply (Hval p vs i v Hvs Hv). intros q ws j u Hws Hu Heq.
    apply (Huniq q ws j u Hws Hu). by rewrite <- !vertexBindName_param.
Qed.

(** C8, as the code has it.  Null exclusion in [edgePropertiesQuery]:
    for the strictly increasing list of the names of the properties
    whose value is not nil, which exists and is the only one, the
    fragment is the concatenation of the property-set fragments of
    these names, one for each, and holds nothing else.  The fragment of
    [p] holds the name [p] as it is and the parameter named by an
    underscore and [p] with its dots replaced by underscores.  The
    parameter of every such property is bound; no binding holds nil or
    comes from anything but such a property; and a property has its own
    value bound when every property that shares its parameter name has
    the same value, so when none shares it. *)
Theorem edgePropertiesQuery_null_exclusion
    (propList : gmap string Property)
    (iter : list (string * Property)) :
  iter ≡ₚ map_to_list propList →
  (∃ names : list string,
     lexSorted names
     ∧ ∀ p, p ∈ names ↔
            ∃ prop, propList !! p = Some prop ∧ Value prop ≠ VNil)
  ∧ ∀ names : list string,
      lexSorted names →
      (∀ p, p ∈ names ↔
            ∃ prop, propList !! p = Some prop ∧ Value prop ≠ VNil) →
      NoDup names
      ∧ (edgePropertiesQuery iter propList).1
        = joinStrings (edgeSetFragment <$> names)
      ∧ (∀ p, p ∈ names →
              is_Some ((edgePropertiesQuery iter propList).2
                         !! edgeParam p))
      ∧ (∀ k x,
           (edgePropertiesQuery iter propList).2 !! k = Some x →
           x ≠ VNil
           ∧ ∃ p prop, propList !! p = Some prop ∧ Value prop = x
                       ∧ k = edgeParam p)
      ∧ (∀ p prop,
           propList !! p = Some prop → Value prop ≠ VNil →
           (∀ q prop',
              propList !! q = Some prop' → Value prop' ≠ VNil →
              edgeParam q = edgeParam p → Value prop' = Value prop) →
           (edgePropertiesQuery iter propList).2 !! edgeParam p
           = Some (Value prop)).
Proof.
  intros Hp.
  destruct (edgePropertiesQuery_emitted propList iter Hp)
    as (names0 & Hs0 & Hnd & Hm0 & Hf & Hb & Hinv & Hval).
  split; [by exists names0|].
  intros names Hs Hm.
  assert (names = names0) as ->.
  { apply lexSorted_unique; [done..|]. intros p. by rewrite Hm, Hm0. }
  split; [done|]. split; [|split; [|split]].
  - rewrite Hf. f_equal. apply list_fmap_ext. intros i p _.
    apply edgeFragment_set.
  - intros p Hin. rewrite <- edgeBindName_param. by apply Hb.
  - intros k x Hk.
    destruct (Hinv k x Hk) as (Hnn & p & prop & Hprop & Hx & ->).
    split; [done|]. exists p, prop. by rewrite edgeBindName_param.
  - intros p prop Hprop Hnn Huniq. rewrite <- edgeBindName_param.
    apply (Hval p prop Hprop Hnn). intros q prop' Hq Hnn' Heq.
    apply (Huniq q prop' Hq Hnn'). by rewrite <- !edgeBindName_param.
Qed.
End GeneratorClaims.

(** The worked instance of C7: a property with one value and a property
    with a dotted name and two values, ranged over in the other order. *)
Lemma vertexPropertiesQuery_fragments_witness :
  (vertexPropertiesQuery
     [("b.c", [mkProperty (VNum 1); mkProperty (VNum 2)]);
      ("a", [mkProperty (VStr "x")])]
     (<["a" := [mkProperty (VStr "x")] ]>
        {["b.c" := [mkProperty (VNum 1); mkProperty (VNum 2)]]})).1
  = ".property('a',_a_0).property(list,'b.c',_b_c_0).property(list,'b.c',_b_c_1)"
  ∧ (vertexPropertiesQuery
       [("b.c", [mkProperty (VNum 1); mkProperty (VNum 2)]);
        ("a", [mkProperty (VStr "x")])]
       (<["a" := [mkProperty (VStr "x")] ]>
          {["b.c" := [mkProperty (VNum 1); mkProperty (VNum 2)]]})).2
      !! "_b_c_1"
    = Some (VNum 2).
Proof.
  destruct (vertexPropertiesQuery_fragments
              (<["a" := [mkProperty (VStr "x")] ]>
                 {["b.c" := [mkProperty (VNum 1); mkProperty (VNum 2)]]})
              [("b.c", [mkProperty (VNum 1); mkProperty (VNum 2)]);
               ("a", [mkProperty (VStr "x")])])
    as [_ H]; [by_compute|].
  destruct (H ["a"; "b.c"]) as (Hf & _ & _ & Hval).
  - unfold Spec.lexSorted. by_compute.
  - intros p. rewrite !elem_of_cons, elem_of_nil. split.
    + intros [->|[->|[]]]; vm_compute; eauto.
    + intros [vs Hvs].
      destruct (decide (p = "a")) as [->|Ha]; [by left|].
      destruct (decide (p = "b.c")) as [->|Hb]; [right; by left|].
      rewrite lookup_insert_ne, lookup_singleton_ne in Hvs by done.
      discriminate.
  - split; [rewrite Hf; vm_compute; reflexivity|].
    apply (Hval "b.c" [mkProperty (VNum 1); mkProperty (VNum 2)] 1
             (mkProperty (VNum 2))); [reflexivity..|].
    intros q ws j u Hws Hu Heq.
    destruct (decide (q = "a")) as [->|Ha].
    { injection Hws as <-. destruct j as [|j]; [|done].
      vm_compute in Heq. discriminate. }
    destruct (decide (q = "b.c")) as [->|Hb].
    { injection Hws as <-. destruct j as [|[|j]]; [| |done].
      - vm_compute in Heq. discriminate.
      - by injection Hu as <-. }
    rewrite lookup_insert_ne, lookup_singleton_ne in Hws by done.
    discriminate.
Defined.

(** The worked instance of C8: a nil property, a property with a dotted
    name and a plain one, ranged over in an order that is not sorted. *)
Lemma edgePropertiesQuery_null_exclusion_witness :
  (edgePropertiesQuery
     [("z", mkProperty (VNum 2)); ("n", mkProperty VNil);
      ("x.y", mkProperty (VNum 1))]
     (<["z" := mkProperty (VNum 2)]>
        (<["n" := mkProperty VNil]> {["x.y" := mkProperty (VNum 1)]}))).1
  = ".property('x.y',_x_y).property('z',_z)"
  ∧ (edgePropertiesQuery
       [("z", mkProperty (VNum 2)); ("n", mkProperty VNil);
        ("x.y", mkProperty (VNum 1))]
       (<["z" := mkProperty (VNum 2)]>
          (<["n" := mkProperty VNil]> {["x.y" := mkProperty (VNum 1)]}))).2
      !! "_x_y"
    = Some (VNum 1).
Proof.
  destruct (edgePropertiesQuery_null_exclusion
              (<["z" := mkProperty (VNum 2)]>
                 (<["n" := mkProperty VNil]>
                    {["x.y" := mkProperty (VNum 1)]}))
              [("z", mkProperty (VNum 2)); ("n", mkProperty VNil);
               ("x.y", mkProperty (VNum 1))])
    as [_ H]; [by_compute|].
  assert (Hkeys : ∀ q prop,
    (<["z" := mkProperty (VNum 2)]>
       (<["n" := mkProperty VNil]> {["x.y" := mkProperty (VNum 1)]})
     : gmap string Property) !! q = Some prop →
    Value prop ≠ VNil → q = "x.y" ∨ q = "z").
  { intros q prop Hq Hnn.
    destruct (decide (q = "z")) as [->|Hz]; [by right|].
    destruct (decide (q = "x.y")) as [->|Hx]; [by left|].
    destruct (decide (q = "n")) as [->|Hn].
    { injection Hq as <-. by destruct Hnn. }
    rewrite !lookup_insert_ne, lookup_singleton_ne in Hq by done.
    discriminate. }
  destruct (H ["x.y"; "z"]) as (_ & Hf & _ & _ & Hval).
  - unfold Spec.lexSorted. by_compute.
  - intros p. rewrite !elem_of_cons, elem_of_nil. split.
    + intros [->|[->|[]]]; eexists; (split; [vm_compute; reflexivity|done]).
    + intros (prop & Hprop & Hnn).
      destruct (Hkeys p prop Hprop Hnn) as [-> | ->]; auto.
  - split; [rewrite Hf; vm_compute; reflexivity|].
    apply (Hval "x.y" (mkProperty (VNum 1))); [reflexivity|done|].
    intros q prop' Hq Hnn Heq.
    destruct (Hkeys q prop' Hq Hnn) as [-> | ->].
    + by injection Hq as <-.
    + vm_compute in Heq. discriminate.
Defined.

(** C8, as stated, fails: of two properties that are not nil and whose
    names differ in a dot and an underscore only, one binding is left, and
    the value of the property with the dotted name is bound nowhere. *)
Lemma edgePropertiesQuery_collision_loses_value :
  (<["a_b" := mkProperty (VNum 2)]> {["a.b" := mkProperty (VNum 1)]}
   : gmap string Property) !! "a.b"
  = Some (mkProperty (VNum 1))
  ∧ (edgePropertiesQuery
       [("a.b", mkProperty (VNum 1)); ("a_b", mkProperty (VNum 2))]
       (<["a_b" := mkProperty (VNum 2)]> {["a.b" := mkProperty (VNum 1)]})).1
    = ".property('a.b',_a_b).property('a_b',_a_b)"
  ∧ (edgePropertiesQuery
       [("a.b", mkProperty (VNum 1)); ("a_b", mkProperty (VNum 2))]
       (<["a_b" := mkProperty (VNum 2)]> {["a.b" := mkProperty (VNum 1)]})).2
    = {[ "_a_b" := VNum 2 ]}
  ∧ ∀ k,
      (edgePropertiesQuery
         [("a.b", mkProperty (VNum 1)); ("a_b", mkProperty (VNum 2))]
         (<["a_b" := mkProperty (VNum 2)]>
            {["a.b" := mkProperty (VNum 1)]})).2 !! k
      ≠ Some (VNum 1).
Proof.
  assert (Hb : (edgePropertiesQuery
       [("a.b", mkProperty (VNum 1)); ("a_b", mkProperty (VNum 2))]
       (<["a_b" := mkProperty (VNum 2)]> {["a.b" := mkProperty (VNum 1)]})).2
    = {[ "_a_b" := VNum 2 ]}) by (vm_compute; reflexivity).
  split; [reflexivity|]. split; [vm_compute; reflexivity|].
  split; [exact Hb|].
  intros k. rewrite Hb. intros Hk.
  apply lookup_singleton_Some in Hk as [_ Hk]. discriminate.
Qed.

(** ** The server backend *)

(** Unfolds the sequencing of the state transformers. *)
Ltac unfold_M :=
  unfold ret, mbind, mret, M_bind, M_ret, logErrorf, withBackend in *.

Section DiffFacts.

Lemma sameEdge_identity l1 l2 :
  sameEdge l1 l2 = true ↔ identity l2 = identity l1.
Proof.
  unfold sameEdge, identity.
  rewrite !andb_true_iff, !bool_decide_eq_true. split.
  - intros [[-> ->] ->]. reflexivity.
  - intros [= -> -> ->]. auto.
Qed.

Lemma scanCurrent_matched l1 currentEdges :
  scanCurrent l1 currentEdges
  = match matched l1 currentEdges with
    | Some l2 =>
        (true, negb (cmpEqual (Edge.Properties l1) (Edge.Properties l2)))
    | None => (false, false)
    end.
Proof.
  unfold matched. induction currentEdges as [|l2 rest IH]; [done|].
  cbn [scanCurrent list_find]. destruct (sameEdge l1 l2) eqn:E.
  - apply sameEdge_identity in E. by rewrite decide_True.
  - assert (identity l2 ≠ identity l1) as Hne.
    { intros Heq. apply sameEdge_identity in Heq. congruence. }
    rewrite decide_False by done. rewrite IH.
    by destruct (list_find _ rest) as [[i c]|].
Qed.

Lemma matched_Some d current c :
  matched d current = Some c → c ∈ current ∧ identity c = identity d.
Proof.
  unfold matched. destruct (list_find _ current) as [[i c']|] eqn:E;
    [|done].
  intros [= <-]. apply list_find_Some in E as (Hi & Hid & _).
  split; [|done]. by eapply list_elem_of_lookup_2.
Qed.

Lemma matched_None d current : matched d current = None ↔ ¬ present d current.
Proof.
  unfold matched, present. rewrite fmap_None, list_find_None.
  rewrite Forall_forall, list_elem_of_fmap. split.
  - intros Hall (c & Heq & Hin). by apply (Hall c).
  - intros Hnot c Hin Heq. apply Hnot. by exists c.
Qed.

Lemma scanDesired_present l1 desired :
  scanDesired l1 desired = bool_decide (present l1 desired).
Proof.
  unfold present. induction desired as [|l2 rest IH]; [done|].
  cbn [scanDesired]. destruct (sameEdge l1 l2) eqn:E.
  - apply sameEdge_identity in E. symmetry. apply bool_decide_eq_true.
    rewrite fmap_cons, E. by left.
  - rewrite IH. apply bool_decide_ext. rewrite fmap_cons, elem_of_cons.
    split; [by right|]. intros [Heq|?]; [|done].
    symmetry in Heq. apply sameEdge_identity in Heq. congruence.
Qed.

(** The two passes of the diff are three filters. *)
Lemma diffEdges_filters desired current :
  diffEdges desired current
  = (ToAdd desired current,
     filter (λ d, differsFromMatch d current) desired,
     ToRemove desired current).
Proof.
  unfold diffEdges, ToAdd, ToRemove.
  match goal with
  | |- context [fold_left ?f desired ([], [])] =>
      assert (Hfirst : ∀ des toAdd toUpdate,
        fold_left f des (toAdd, toUpdate)
        = (toAdd ++ filter (λ d, ¬ present d current) des,
           toUpdate ++ filter (λ d, differsFromMatch d current) des))
  end.
  { induction des as [|d des IH]; intros toAdd toUpdate.
    - by rewrite !filter_nil, !app_nil_r.
    - cbn [fold_left]. rewrite scanCurrent_matched.
      destruct (matched d current) as [c|] eqn:E.
      + assert (present d current) as Hpres.
        { destruct (decide (present d current)) as [?|Hn]; [done|].
          apply matched_None in Hn. congruence. }
        cbn [negb andb]. rewrite (filter_cons_False _ d des) by tauto.
        unfold cmpEqual.
        destruct (decide (Edge.Properties c = Edge.Properties d)) as [Heq|Hne].
        * rewrite bool_decide_eq_true_2 by done. cbn [negb].
          rewrite IH. f_equal. rewrite filter_cons_False; [done|].
          unfold differsFromMatch. rewrite E. tauto.
        * rewrite bool_decide_eq_false_2 by done. cbn [negb].
          rewrite IH. f_equal. rewrite filter_cons_True.
          -- by rewrite <- app_assoc.
          -- unfold differsFromMatch. by rewrite E.
      + apply matched_None in E as Hn. cbn [negb andb].
        rewrite IH. rewrite (filter_cons_True _ d des) by done.
        rewrite filter_cons_False.
        * by rewrite <- app_assoc.
        * unfold differsFromMatch. apply matched_None in Hn.
          rewrite Hn. tauto. }
  match goal with
  | |- context [fold_left ?f current []] =>
      assert (Hsecond : ∀ cur toRemove,
        fold_left f cur toRemove
        = toRemove ++ filter (λ c, ¬ present c desired) cur)
  end.
  { induction cur as [|c cur IH]; intros toRemove.
    - by rewrite filter_nil, app_nil_r.
    - cbn [fold_left]. rewrite scanDesired_present, IH.
      destruct (decide (present c desired)) as [Hp|Hn].
      + rewrite bool_decide_eq_true_2 by done. cbn [negb].
        by rewrite filter_cons_False by tauto.
      + rewrite bool_decide_eq_false_2 by done. cbn [negb].
        rewrite filter_cons_True by done. by rewrite <- app_assoc. }
  rewrite (Hfirst desired [] []), (Hsecond current []). done.
Qed.

Lemma NoDup_fmap_eq {A B} (f : A → B) (l : list A) x y :
  NoDup (f <$> l) → x ∈ l → y ∈ l → f x = f y → x = y.
Proof.
  induction l as [|a l IH]; intros Hnd Hx Hy Hf; [by apply elem_of_nil in Hx|].
  rewrite fmap_cons in Hnd. apply NoDup_cons in Hnd as [Ha Hnd].
  apply elem_of_cons in Hx as [->|Hx]; apply elem_of_cons in Hy as [->|Hy].
  - done.
  - destruct Ha. rewrite Hf. by apply list_elem_of_fmap_2.
  - destruct Ha. rewrite <- Hf. by apply list_elem_of_fmap_2.
  - by apply IH.
Qed.

(** When no two current edges share an identity, differing from the
    match is differing from some edge of that identity. *)
Lemma differsFromMatch_differs d current :
  NoDup (identity <$> current) →
  differsFromMatch d current ↔ differs d current.
Proof.
  intros Hnd. unfold differsFromMatch, differs. rewrite Exists_exists.
  destruct (matched d current) as [c|] eqn:E.
  - apply matched_Some in E as [Hin Hid]. split.
    + intros Hne. by exists c.
    + intros (c' & Hin' & Hid' & Hne).
      assert (c' = c) as ->; [|done].
      apply (NoDup_fmap_eq identity current); [done..|congruence].
  - apply matched_None in E. split; [done|].
    intros (c & Hin & Hid & _). apply E. unfold present. rewrite <- Hid.
    by apply list_elem_of_fmap_2.
Qed.

Lemma vertexEdges_concat mapRange v :
  vertexEdges mapRange v
  = mjoin (mapRange _ (Vertex.OutE v)).*2
      ++ mjoin (mapRange _ (Vertex.InE v)).*2.
Proof.
  unfold vertexEdges.
  assert (Hgroups : ∀ (gs : list (string * list Edge.t)) acc,
    fold_left (λ acc (g : string * list Edge.t), acc ++ g.2) gs acc
    = acc ++ mjoin gs.*2).
  { induction gs as [|g gs IH]; intros acc; simpl.
    - by rewrite app_nil_r.
    - by rewrite IH, <- app_assoc. }
  by rewrite !Hgroups.
Qed.
End DiffFacts.

Section BackendClaims.
Context {T O : Type}.
Variable clientSend : Request → T → (string + client_error) * T.
Variable unmarshalEdges : string → list Edge.t.
Variable mapRange : ∀ V : Type, gmap string V → list (string * V).

Implicit Types w : World (T := T) (O := O).

Local Notation Send := (Send clientSend).
Local Notation CreateEdge := (CreateEdge clientSend mapRange).
Local Notation UpdateEdge := (UpdateEdge clientSend mapRange).
Local Notation DeleteEdge := (DeleteEdge clientSend).
Local Notation currentVertexEdges :=
  (currentVertexEdges clientSend unmarshalEdges).
Local Notation diffVertexEdges :=
  (diffVertexEdges clientSend unmarshalEdges mapRange).
Local Notation updateVertexEdges :=
  (updateVertexEdges clientSend unmarshalEdges mapRange).
Local Notation UpdateVertex :=
  (UpdateVertex clientSend unmarshalEdges mapRange).
Local Notation UpdateVertexProperty := (UpdateVertexProperty clientSend).

Lemma Send_run req w :
  Send req w
  = ((clientSend req (client (backend w))).1,
     afterSend req (clientSend req (client (backend w))).2 w).
Proof.
  unfold Gremlin.Send, afterSend.
  by destruct (clientSend req (client (backend w))).
Qed.

(** C1.  The edge diff of [diffVertexEdges].  Desired is the
    concatenation of the outgoing and the incoming edge groups of the
    vertex, Current the edges read from the store.  When the read
    succeeds, [toAdd] is the desired edges whose identity (source id,
    destination id, label) is absent from Current, [toRemove] the
    current edges whose identity is absent from Desired, and [toUpdate]
    the desired edges whose match in Current has a different property
    map; when no two current edges share an identity these are the
    desired edges for which Current holds an edge of the same identity
    and a different property map.  When the read fails the three lists
    are empty and the error is returned. *)
Theorem diffVertexEdges_three_way (v : Vertex.t) w :
  let desired := vertexEdges mapRange v in
  desired
  = mjoin (mapRange _ (Vertex.OutE v)).*2
      ++ mjoin (mapRange _ (Vertex.InE v)).*2
  ∧ match currentVertexEdges v w with
    | ((current, None), w') =>
        diffVertexEdges v w
        = ((ToAdd desired current,
            filter (λ d, differsFromMatch d current) desired,
            ToRemove desired current, None), w')
        ∧ (NoDup (identity <$> current) →
           diffVertexEdges v w
           = ((ToAdd desired current, ToUpdate desired current,
               ToRemove desired current, None), w'))
    | ((_, Some err), w') =>
        diffVertexEdges v w = (([], [], [], Some err), w')
    end.
Proof.
  intros desired. split; [apply vertexEdges_concat|].
  unfold Gremlin.diffVertexEdges. unfold_M.
  destruct (currentVertexEdges v w) as [[current [err|]] w'] eqn:E.
  - reflexivity.
  - fold desired. rewrite diffEdges_filters.
    split; [reflexivity|]. intros Hnd. unfold ToUpdate.
    do 4 f_equal. apply list_filter_iff. intros d.
    by apply differsFromMatch_differs.
Qed.
End BackendClaims.

(** The worked instance of the diff: Current holds A→B with [p = 1];
    Desired holds A→B with [p = 2] and A→C. *)
Lemma diffVertexEdges_three_way_witness :
  (diffVertexEdges (Sample.sendOk "")
     (λ _, [Sample.edgeAB {[ "p" := mkProperty (VNum 1) ]}])
     Sample.mapRange (Sample.vertexA "virtual_network")
     (Sample.world true)).1
  = ([Sample.edgeAC],
     [Sample.edgeAB {[ "p" := mkProperty (VNum 2) ]}], [], None).
Proof.
  pose proof (diffVertexEdges_three_way (Sample.sendOk "")
     (λ _, [Sample.edgeAB {[ "p" := mkProperty (VNum 1) ]}])
     Sample.mapRange (Sample.vertexA "virtual_network")
     (Sample.world true)) as [_ H].
  assert (Hc : (currentVertexEdges (Sample.sendOk "")
                  (λ _, [Sample.edgeAB {[ "p" := mkProperty (VNum 1) ]}])
                  (Sample.vertexA "virtual_network") (Sample.world true)).1
               = ([Sample.edgeAB {[ "p" := mkProperty (VNum 1) ]}], None))
    by reflexivity.
  destruct (currentVertexEdges _ _ _ _) as [[current err] w'].
  cbn [fst] in Hc. injection Hc as -> ->.
  destruct H as [_ H]. rewrite H.
  - vm_compute. reflexivity.
  - by_compute.
Defined.

Section BackendOperations.
Context {T O : Type}.
Variable clientSend : Request → T → (string + client_error) * T.
Variable unmarshalEdges : string → list Edge.t.
Variable mapRange : ∀ V : Type, gmap string V → list (string * V).

Implicit Types w : World (T := T) (O := O).
Implicit Types op : M (T := T) (O := O) (option error).

Local Notation Send := (Send clientSend).
Local Notation CreateEdge := (CreateEdge clientSend mapRange).
Local Notation UpdateEdge := (UpdateEdge clientSend mapRange).
Local Notation DeleteEdge := (DeleteEdge clientSend).
Local Notation diffVertexEdges :=
  (diffVertexEdges clientSend unmarshalEdges mapRange).
Local Notation updateVertexEdges :=
  (updateVertexEdges clientSend unmarshalEdges mapRange).
Local Notation UpdateVertex :=
  (UpdateVertex clientSend unmarshalEdges mapRange).
Local Notation UpdateVertexProperty := (UpdateVertexProperty clientSend).
Local Notation oneCall := (oneCall (O := O) clientSend).

Lemma CreateEdge_oneCall e : oneCall (CreateEdge e).
Proof.
  intros w. unfold Gremlin.CreateEdge.
  destruct (edgePropertiesQuery _ _) as [props bindings].
  unfold_M. rewrite Send_run.
  eexists. cbn [fst snd].
  destruct (decide _); cbn; eauto.
Qed.

Lemma UpdateEdge_oneCall e : oneCall (UpdateEdge e).
Proof.
  intros w. unfold Gremlin.UpdateEdge.
  destruct (edgePropertiesQuery _ _) as [props bindings].
  unfold_M. rewrite Send_run.
  eexists. cbn [fst snd].
  destruct (decide _); cbn; eauto.
Qed.

Lemma DeleteEdge_oneCall e : oneCall (DeleteEdge e).
Proof.
  intros w. unfold Gremlin.DeleteEdge. unfold_M. rewrite Send_run.
  eexists. cbn. eauto.
Qed.

Lemma allSucceed_app ops1 ops2 w w1 w2 :
  allSucceed ops1 w w1 → allSucceed ops2 w1 w2 →
  allSucceed (ops1 ++ ops2) w w2.
Proof.
  induction 1 as [|op ops w0 wa wb Hop Hs IH]; intros H2; [done|].
  rewrite <- app_comm_cons. econstructor; [done|]. by apply IH.
Qed.

Lemma allSucceed_sent ops w w' :
  Forall oneCall ops → allSucceed ops w w' →
  length (sent w') = length (sent w) + length ops.
Proof.
  intros Hall Hs. induction Hs as [|op ops w0 wa wb Hop Hs IH]; simpl.
  - lia.
  - apply Forall_cons in Hall as [Hone Hall]. rewrite (IH Hall).
    destruct (Hone w0) as (req & Hsent & _). rewrite Hop in Hsent.
    simpl in Hsent. rewrite Hsent, length_app. simpl. lia.
Qed.

(** The loop over a list of edges stops at the first error. *)
Lemma rangeEdges_run (f : Edge.t → M (option error)) edges w :
  (∃ w', rangeEdges f edges w = (None, w')
         ∧ allSucceed (f <$> edges) w w')
  ∨ (∃ done x rest e w2 w',
       edges = done ++ x :: rest
       ∧ allSucceed (f <$> done) w w2
       ∧ f x w2 = (Some e, w')
       ∧ rangeEdges f edges w = (Some e, w')).
Proof.
  revert w. induction edges as [|x edges IH]; intros w.
  - left. exists w. split; [done|constructor].
  - cbn [rangeEdges]. unfold_M.
    destruct (f x w) as [[e|] w1] eqn:E.
    + right. exists [], x, edges, e, w, w1.
      repeat split; [constructor|done].
    + destruct (IH w1) as [(w' & Hr & Hs)|
        (done & y & rest & e & w2 & w' & -> & Hs & Hy & Hr)].
      * left. exists w'. split; [done|]. rewrite fmap_cons.
        by econstructor.
      * right. exists (x :: done), y, rest, e, w2, w'.
        repeat split; [|done..]. rewrite fmap_cons. by econstructor.
Qed.

(** C2.  [updateVertexEdges] applies the operations of the diff in the
    fixed order all [toAdd], all [toUpdate], all [toRemove].  Either all
    of them succeed, one request each, and no error is returned; or the
    operations before the first failing one succeed, the error of that
    one is returned, and the world is left as that operation left it:
    nothing of the remaining operations is run and nothing of the
    applied ones is undone.  An error of the diff itself is returned
    before any operation. *)
Theorem updateVertexEdges_order_abort (v : Vertex.t) w :
  match diffVertexEdges v w with
  | ((_, _, _, Some err), w1) => updateVertexEdges v w = (Some err, w1)
  | ((toAdd, toUpdate, toRemove, None), w1) =>
      let ops :=
        (CreateEdge <$> toAdd) ++ (UpdateEdge <$> toUpdate)
          ++ (DeleteEdge <$> toRemove) in
      (∃ w', updateVertexEdges v w = (None, w')
             ∧ allSucceed ops w1 w'
             ∧ length (sent w') = length (sent w1) + length ops)
      ∨ (∃ done op rest e w2 w',
           ops = done ++ op :: rest
           ∧ allSucceed done w1 w2
           ∧ op w2 = (Some e, w')
           ∧ updateVertexEdges v w = (Some e, w')
           ∧ length (sent w') = length (sent w1) + length done + 1)
  end.
Proof.
  unfold Gremlin.updateVertexEdges. unfold_M.
  destruct (diffVertexEdges v w)
    as [[[[toAdd toUpdate] toRemove] [err|]] w1]; [done|].
  assert (Hadd : Forall oneCall (CreateEdge <$> toAdd)).
  { apply Forall_fmap, Forall_forall. intros e _. apply CreateEdge_oneCall. }
  assert (Hupd : Forall oneCall (UpdateEdge <$> toUpdate)).
  { apply Forall_fmap, Forall_forall. intros e _. apply UpdateEdge_oneCall. }
  assert (Hdel : Forall oneCall (DeleteEdge <$> toRemove)).
  { apply Forall_fmap, Forall_forall. intros e _. apply DeleteEdge_oneCall. }
  assert (Hfail : ∀ done op w2 e w',
    Forall oneCall done → oneCall op →
    allSucceed done w1 w2 → op w2 = (Some e, w') →
    length (sent w') = length (sent w1) + length done + 1).
  { intros done op w2 e w' Hd Ho Hs Hop.
    rewrite <- (allSucceed_sent done w1 w2 Hd Hs).
    destruct (Ho w2) as (req & Hsent & _). rewrite Hop in Hsent.
    simpl in Hsent. rewrite Hsent, length_app. simpl. lia. }
  set (ops := (CreateEdge <$> toAdd) ++ (UpdateEdge <$> toUpdate)
                ++ (DeleteEdge <$> toRemove)).
  destruct (rangeEdges_run CreateEdge toAdd w1) as [(wa & -> & Hsa)|
    (done & x & rest & e & w2 & w' & -> & Hs & Hx & ->)].
  2: { right. exists (CreateEdge <$> done), (CreateEdge x),
         ((CreateEdge <$> rest) ++ (UpdateEdge <$> toUpdate)
            ++ (DeleteEdge <$> toRemove)), e, w2, w'.
       split; [|split; [done|split; [done|split; [done|]]]].
       - unfold ops. rewrite fmap_app, fmap_cons.
         by rewrite <- app_assoc.
       - rewrite fmap_app in Hadd. apply Forall_app in Hadd as [Hd Hr].
         apply Forall_cons in Hr as [Hx' _]. by eapply Hfail. }
  destruct (rangeEdges_run UpdateEdge toUpdate wa) as [(wb & -> & Hsb)|
    (done & x & rest & e & w2 & w' & -> & Hs & Hx & ->)].
  2: { right. exists ((CreateEdge <$> toAdd) ++ (UpdateEdge <$> done)),
         (UpdateEdge x),
         ((UpdateEdge <$> rest) ++ (DeleteEdge <$> toRemove)), e, w2, w'.
       rewrite fmap_app in Hupd. apply Forall_app in Hupd as [Hd Hr].
       apply Forall_cons in Hr as [Hx' _].
       split; [|split; [|split; [done|split; [done|]]]].
       - unfold ops. rewrite fmap_app, fmap_cons.
         by rewrite <- !app_assoc.
       - by eapply allSucceed_app.
       - eapply Hfail; [|done| |done].
         + by apply Forall_app.
         + by eapply allSucceed_app. }
  destruct (rangeEdges_run DeleteEdge toRemove wb) as [(wc & -> & Hsc)|
    (done & x & rest & e & w2 & w' & -> & Hs & Hx & ->)].
  2: { right.
       exists ((CreateEdge <$> toAdd) ++ (UpdateEdge <$> toUpdate)
                 ++ (DeleteEdge <$> done)),
         (DeleteEdge x), (DeleteEdge <$> rest), e, w2, w'.
       rewrite fmap_app in Hdel. apply Forall_app in Hdel as [Hd Hr].
       apply Forall_cons in Hr as [Hx' _].
       assert (Hs' : allSucceed
         ((CreateEdge <$> toAdd) ++ (UpdateEdge <$> toUpdate)
            ++ (DeleteEdge <$> done)) w1 w2).
       { eapply allSucceed_app; [done|]. by eapply allSucceed_app. }
       split; [|split; [done|split; [done|split; [done|]]]].
       - unfold ops. rewrite fmap_app, fmap_cons.
         by rewrite <- !app_assoc.
       - eapply Hfail; [|done|done|done].
         apply Forall_app. split; [done|]. by apply Forall_app. }
  left. exists wc.
  assert (Hs' : allSucceed ops w1 wc).
  { eapply allSucceed_app; [done|]. by eapply allSucceed_app. }
  split; [done|split; [done|]].
  apply allSucceed_sent; [|done].
  apply Forall_app. split; [done|]. by apply Forall_app.
Qed.
End BackendOperations.

Section BackendVertexClaims.
Context {T O : Type}.
Variable clientSend : Request → T → (string + client_error) * T.
Variable unmarshalEdges : string → list Edge.t.
Variable mapRange : ∀ V : Type, gmap string V → list (string * V).

Implicit Types w : World (T := T) (O := O).

Local Notation Send := (Send clientSend).
Local Notation CreateEdge := (CreateEdge clientSend mapRange).
Local Notation UpdateEdge := (UpdateEdge clientSend mapRange).
Local Notation DeleteEdge := (DeleteEdge clientSend).
Local Notation diffVertexEdges :=
  (diffVertexEdges clientSend unmarshalEdges mapRange).
Local Notation updateVertexEdges :=
  (updateVertexEdges clientSend unmarshalEdges mapRange).
Local Notation UpdateVertex :=
  (UpdateVertex clientSend unmarshalEdges mapRange).
Local Notation UpdateVertexProperty := (UpdateVertexProperty clientSend).

Lemma errOf_fromClient res : fromClient (errOf res).
Proof. by destruct res. Qed.

Lemma rangeEdges_fromClient (f : Edge.t → M (option error)) edges w :
  (∀ e, oneCall (O := O) clientSend (f e)) → fromClient (rangeEdges f edges w).1.
Proof.
  intros Hone. revert w. induction edges as [|x edges IH]; intros w.
  - done.
  - cbn [rangeEdges]. unfold_M.
    destruct (Hone x w) as (req & _ & _ & Hres).
    destruct (f x w) as [[e|] w1]; [|apply IH].
    cbn [fst] in *. rewrite Hres. apply errOf_fromClient.
Qed.

Lemma updateVertexEdges_fromClient v w :
  fromClient (updateVertexEdges v w).1.
Proof.
  unfold Gremlin.updateVertexEdges, Gremlin.diffVertexEdges,
    Gremlin.currentVertexEdges. unfold_M. rewrite Send_run.
  destruct (clientSend _ _) as [[data|e] c]; cbn [fst snd]; [|done].
  destruct (diffEdges _ _) as [[toAdd toUpdate] toRemove].
  match goal with
  | |- context [rangeEdges _ toAdd ?w0] =>
      pose proof (rangeEdges_fromClient CreateEdge toAdd w0
                    (CreateEdge_oneCall _ _)) as Ha
  end.
  destruct (rangeEdges CreateEdge toAdd _) as [[e|] wa]; [done|].
  pose proof (rangeEdges_fromClient UpdateEdge toUpdate wa
                (UpdateEdge_oneCall _ _)) as Hu.
  destruct (rangeEdges UpdateEdge toUpdate _) as [[e|] wb]; [done|].
  pose proof (rangeEdges_fromClient DeleteEdge toRemove wb
                (DeleteEdge_oneCall _)) as Hd.
  by destruct (rangeEdges DeleteEdge toRemove _) as [[e|] wc].
Qed.

(** C5.  For a vertex whose label is empty, [UpdateVertex] and
    [UpdateVertexProperty] return [ErrIncompleteVertex] and leave the
    world as it is: no request goes to the store.  For a vertex whose
    label is not empty, neither of them returns that error. *)
Theorem incomplete_vertex_rejected
    (v : Vertex.t) (name : string) (value : value) w :
  (Vertex.Label v = "" →
     UpdateVertex v w = (Some ErrIncompleteVertex, w)
     ∧ UpdateVertexProperty v name value w = (Some ErrIncompleteVertex, w))
  ∧ (Vertex.Label v ≠ "" →
     (UpdateVertex v w).1 ≠ Some ErrIncompleteVertex
     ∧ (UpdateVertexProperty v name value w).1 ≠ Some ErrIncompleteVertex).
Proof.
  unfold Gremlin.UpdateVertex, Gremlin.UpdateVertexProperty. split.
  - intros Hl. by rewrite !decide_True.
  - intros Hl. rewrite !decide_False by done. split.
    + destruct (vertexPropertiesQuery _ _) as [props bindings].
      unfold_M. rewrite Send_run.
      destruct (clientSend _ _) as [[data|e] c]; cbn [fst snd errOf].
      * apply updateVertexEdges_fromClient.
      * by destruct (decide _).
    + unfold_M. rewrite Send_run.
      by destruct (clientSend _ _) as [[data|e] c].
Qed.

(** C10, as the code has it.  [UpdateEdge] sends the drop-and-rewrite
    script with the bindings of the edge properties and the two endpoint
    ids; [DeleteEdge] sends the drop script with the two endpoint ids
    only.  Neither request depends on the label of the edge or on the
    labels of its endpoints, so the scripts select by the endpoint pair
    alone. *)
Theorem edge_selected_by_endpoints (e : Edge.t) w :
  let pq :=
    edgePropertiesQuery (mapRange _ (Edge.Properties e))
      (Edge.Properties e) in
  sent (UpdateEdge e w).2
  = sent w ++
      [Query (updateEdgeHead +:+ pq.1 +:+ ".iterate()")
         (<["_outv" := VStr (Edge.OutV e)]>
            (<["_inv" := VStr (Edge.InV e)]> pq.2))]
  ∧ (∀ k,
       is_Some
         ((<["_outv" := VStr (Edge.OutV e)]>
             (<["_inv" := VStr (Edge.InV e)]> pq.2)
           : gmap string value) !! k)
       ↔ k = "_outv" ∨ k = "_inv" ∨ is_Some (pq.2 !! k))
  ∧ sent (DeleteEdge e w).2
    = sent w ++
        [Query "g.V(_inv).bothE().where(otherV().hasId(_outv)).drop()"
           (<["_outv" := VStr (Edge.OutV e)]>
              (<["_inv" := VStr (Edge.InV e)]> ∅))]
  ∧ ∀ outVLabel inVLabel label,
      let e' :=
        Edge.mk (Edge.OutV e) outVLabel (Edge.InV e) inVLabel label
          (Edge.Properties e) in
      UpdateEdge e' w = UpdateEdge e w ∧ DeleteEdge e' w = DeleteEdge e w.
Proof.
  intros pq. split; [|split; [|split]].
  - unfold Gremlin.UpdateEdge. fold pq. destruct pq as [props bindings].
    unfold_M. rewrite Send_run. cbn [fst snd].
    by destruct (decide _).
  - intros k. rewrite !lookup_insert_is_Some. split.
    + intros [->|[_ [->|[_ H]]]]; auto.
    + destruct (decide ("_outv" = k)) as [->|?]; [by left|].
      destruct (decide ("_inv" = k)) as [->|?]; [right; split; auto|].
      intros [->|[->|H]]; try done. right. split; [done|]. right. done.
  - unfold Gremlin.DeleteEdge. unfold_M. by rewrite Send_run.
  - intros outVLabel inVLabel label e'. done.
Qed.
End BackendVertexClaims.

Lemma incomplete_vertex_rejected_witness :
  UpdateVertex (Sample.sendOk "") (λ _, []) Sample.mapRange
    (Sample.vertexA "") (Sample.world true)
  = (Some ErrIncompleteVertex, Sample.world true)
  ∧ (UpdateVertex (Sample.sendOk "") (λ _, []) Sample.mapRange
       (Sample.vertexA "virtual_network") (Sample.world true)).1
    ≠ Some ErrIncompleteVertex.
Proof.
  split.
  - apply (incomplete_vertex_rejected (Sample.sendOk "") (λ _, [])
             Sample.mapRange (Sample.vertexA "") "name" VNil
             (Sample.world true)).
    reflexivity.
  - apply (incomplete_vertex_rejected (Sample.sendOk "") (λ _, [])
             Sample.mapRange (Sample.vertexA "virtual_network") "name" VNil
             (Sample.world true)).
    vm_compute. discriminate.
Defined.

(** C10, as stated, fails: the bindings of [UpdateEdge] hold the property
    values of the edge besides the two endpoint ids. *)
Lemma UpdateEdge_binds_properties :
  Bindings <$>
    last (sent (UpdateEdge (Sample.sendOk "") Sample.mapRange
                  (Sample.edgeAB {[ "p" := mkProperty (VNum 2) ]})
                  (Sample.world true)).2)
  = Some (<["_p" := VNum 2]>
            (<["_outv" := VStr "A"]> (<["_inv" := VStr "B"]> ∅)))
  ∧ (<["_p" := VNum 2]>
       (<["_outv" := VStr "A"]> (<["_inv" := VStr "B"]> ∅))
     : gmap string value)
    ≠ <["_outv" := VStr "A"]> (<["_inv" := VStr "B"]> ∅).
Proof.
  split.
  - vm_compute. reflexivity.
  - intros H. apply (f_equal (λ m : gmap string value, m !! "_p")) in H.
    vm_compute in H. discriminate.
Qed.

(** ** Further properties of the server backend *)

Section BackendNotifications.
Context {T O : Type}.
Implicit Types w : World (T := T) (O := O).


End BackendNotifications.

Section BackendRequests.
Context {T O : Type}.
Variable clientSend : Request → T → (string + client_error) * T.
Variable unmarshalEdges : string → list Edge.t.
Variable mapRange : ∀ V : Type, gmap string V → list (string * V).

Implicit Types w : World (T := T) (O := O).

Local Notation Send := (Send clientSend).
Local Notation CreateEdge := (CreateEdge clientSend mapRange).
Local Notation UpdateEdge := (UpdateEdge clientSend mapRange).
Local Notation DeleteEdge := (DeleteEdge clientSend).
Local Notation DeleteVertex := (DeleteVertex clientSend).
Local Notation currentVertexEdges :=
  (currentVertexEdges clientSend unmarshalEdges).
Local Notation diffVertexEdges :=
  (diffVertexEdges clientSend unmarshalEdges mapRange).
Local Notation updateVertexEdges :=
  (updateVertexEdges clientSend unmarshalEdges mapRange).
Local Notation UpdateVertex :=
  (UpdateVertex clientSend unmarshalEdges mapRange).
Local Notation UpdateVertexProperty := (UpdateVertexProperty clientSend).

(** X3.  [CreateEdge] sends one request.  Its script starts from the
    destination vertex when the label of the destination is empty, from
    the source vertex when only the label of the source is empty, and it
    is the empty script when neither label is empty.  The five reserved
    parameters carry the ids and labels of the edge, also when a property
    of the edge gives the same parameter name; every other parameter is
    bound as the property generator binds it. *)
Theorem CreateEdge_script_and_reserved_bindings (e : Edge.t) w :
  let pq :=
    edgePropertiesQuery (mapRange _ (Edge.Properties e))
      (Edge.Properties e) in
  ∃ req,
    sent (CreateEdge e w).2 = sent w ++ [req]
    ∧ (CreateEdge e w).1 = errOf (clientSend req (client (backend w))).1
    ∧ Gremlin req
      = (if decide (Edge.InVLabel e = "")
         then createEdgeFromInV +:+ pq.1 +:+ ".iterate()"
         else if decide (Edge.OutVLabel e = "")
              then createEdgeFromOutV +:+ pq.1 +:+ ".iterate()"
              else "")
    ∧ Bindings req !! "_outv" = Some (VStr (Edge.OutV e))
    ∧ Bindings req !! "_outv_label" = Some (VStr (Edge.OutVLabel e))
    ∧ Bindings req !! "_inv" = Some (VStr (Edge.InV e))
    ∧ Bindings req !! "_inv_label" = Some (VStr (Edge.InVLabel e))
    ∧ Bindings req !! "_label" = Some (VStr (Edge.Label e))
    ∧ ∀ k,
        k ∉ ["_outv"; "_outv_label"; "_inv"; "_inv_label"; "_label"] →
        Bindings req !! k = pq.2 !! k.
Proof.
  intros pq. unfold Gremlin.CreateEdge. fold pq.
  destruct pq as [props bindings]. unfold_M. rewrite Send_run.
  eexists. cbn [fst snd].
  split; [by destruct (decide (errOf _ = _))|].
  split; [by destruct (decide (errOf _ = _))|].
  cbn [Gremlin Bindings].
  split; [by repeat destruct (decide (_ = ""))|].
  repeat (split;
    [by repeat (rewrite lookup_insert_eq
                || rewrite lookup_insert_ne by done)|]).
  intros k Hk. rewrite !elem_of_cons, elem_of_nil in Hk.
  rewrite !lookup_insert_ne; [done|naive_solver..].
Qed.

(** X4.  The edge operations log a failed request exactly when the
    client reports invalid request arguments: [CreateEdge] and
    [UpdateEdge] then add one entry with the script and the bindings of
    the request, and add nothing for any other answer; [DeleteEdge]
    never writes to the log. *)
Theorem edge_operations_log_invalid_arguments (e : Edge.t) w :
  (∃ req,
     sent (CreateEdge e w).2 = sent w ++ [req]
     ∧ logged (CreateEdge e w).2
       = logged w ++
           (if decide ((clientSend req (client (backend w))).1
                       = inr ErrStatusInvalidRequestArguments)
            then [LogQueryError (Gremlin req) (Bindings req)] else []))
  ∧ (∃ req,
       sent (UpdateEdge e w).2 = sent w ++ [req]
       ∧ logged (UpdateEdge e w).2
         = logged w ++
             (if decide ((clientSend req (client (backend w))).1
                         = inr ErrStatusInvalidRequestArguments)
              then [LogQueryError (Gremlin req) (Bindings req)] else []))
  ∧ logged (DeleteEdge e w).2 = logged w.
Proof.
  assert (Hlog : ∀ res : string + client_error,
    (errOf res = Some (ClientError ErrStatusInvalidRequestArguments))
    ↔ res = inr ErrStatusInvalidRequestArguments).
  { intros [data|err]; cbn; split; congruence. }
  split; [|split].
  - unfold Gremlin.CreateEdge.
    destruct (edgePropertiesQuery _ _) as [props bindings].
    unfold_M. rewrite Send_run. eexists. cbn [fst snd].
    destruct (decide (errOf _ = _)) as [Hd|Hd]; cbn [fst snd sent logged];
      (split; [reflexivity|]); rewrite Hlog in Hd.
    + by rewrite (decide_True _ _ Hd).
    + by rewrite (decide_False _ _ Hd), app_nil_r.
  - unfold Gremlin.UpdateEdge.
    destruct (edgePropertiesQuery _ _) as [props bindings].
    unfold_M. rewrite Send_run. eexists. cbn [fst snd].
    destruct (decide (errOf _ = _)) as [Hd|Hd]; cbn [fst snd sent logged];
      (split; [reflexivity|]); rewrite Hlog in Hd.
    + by rewrite (decide_True _ _ Hd).
    + by rewrite (decide_False _ _ Hd), app_nil_r.
  - unfold Gremlin.DeleteEdge. unfold_M. by rewrite Send_run.
Qed.

Lemma rangeEdges_sent (f : Edge.t → M (option error)) edges w :
  (∀ e, oneCall (O := O) clientSend (f e)) →
  ∃ l, sent (rangeEdges f edges w).2 = sent w ++ l.
Proof.
  intros Hone. revert w. induction edges as [|x edges IH]; intros w.
  - exists []. by rewrite app_nil_r.
  - cbn [rangeEdges]. unfold_M.
    destruct (Hone x w) as (req & Hs & _).
    destruct (f x w) as [[e|] w1]; cbn [fst snd] in *.
    + by exists [req].
    + destruct (IH w1) as [l Hl]. exists (req :: l).
      rewrite Hl, Hs. by rewrite <- app_assoc.
Qed.

(** The reconciliation of the edges starts with the read of the current
    edges. *)
Lemma updateVertexEdges_sent v w :
  ∃ l, sent (updateVertexEdges v w).2
       = sent w
           ++ Query "g.V(_id).bothE()" {[ "_id" := VStr (Vertex.ID v) ]}
              :: l.
Proof.
  unfold Gremlin.updateVertexEdges, Gremlin.diffVertexEdges,
    Gremlin.currentVertexEdges. unfold_M. rewrite Send_run.
  destruct (clientSend _ _) as [[data|e] c]; cbn [fst snd];
    [|by exists []].
  destruct (diffEdges _ _) as [[toAdd toUpdate] toRemove].
  match goal with
  | |- context [rangeEdges _ toAdd ?w0] =>
      destruct (rangeEdges_sent CreateEdge toAdd w0
                  (CreateEdge_oneCall _ _)) as [la Ha];
      change (sent w0) with (sent w ++ [Query "g.V(_id).bothE()"
                               {[ "_id" := VStr (Vertex.ID v) ]}]) in Ha
  end.
  destruct (rangeEdges CreateEdge toAdd _) as [[e|] wa];
    cbn [fst snd] in *.
  { exists la. by rewrite Ha, <- app_assoc. }
  destruct (rangeEdges_sent UpdateEdge toUpdate wa
              (UpdateEdge_oneCall _ _)) as [lu Hu].
  destruct (rangeEdges UpdateEdge toUpdate _) as [[e|] wb];
    cbn [fst snd] in *.
  { exists (la ++ lu). by rewrite Hu, Ha, <- !app_assoc. }
  destruct (rangeEdges_sent DeleteEdge toRemove wb
              (DeleteEdge_oneCall _)) as [ld Hd].
  destruct (rangeEdges DeleteEdge toRemove _) as [[e|] wc];
    cbn [fst snd] in *;
    exists (la ++ lu ++ ld); by rewrite Hd, Hu, Ha, <- !app_assoc.
Qed.

(** X5.  For a vertex with a label, [UpdateVertex] first sends the vertex
    script, with [_id] and [_label] bound to the id and the label of the
    vertex.  When the client answers with an error, that error is
    returned, nothing else is sent, so no edge is read or written, and
    the request is logged exactly when the error is the one for invalid
    request arguments.  When the client answers without an error, the
    edges are reconciled from the state the answer left, and the second
    request is the read of the current edges. *)
Theorem UpdateVertex_vertex_script_first (v : Vertex.t) w :
  Vertex.Label v ≠ "" →
  let pq :=
    vertexPropertiesQuery (mapRange _ (Vertex.Properties v))
      (Vertex.Properties v) in
  let req :=
    Query (updateVertexHead +:+ pq.1 +:+ ".iterate()")
      (<["_label" := VStr (Vertex.Label v)]>
         (<["_id" := VStr (Vertex.ID v)]> pq.2)) in
  let answer := clientSend req (client (backend w)) in
  match answer.1 with
  | inr e =>
      (UpdateVertex v w).1 = Some (ClientError e)
      ∧ sent (UpdateVertex v w).2 = sent w ++ [req]
      ∧ logged (UpdateVertex v w).2
        = logged w ++
            (if decide (e = ErrStatusInvalidRequestArguments)
             then [LogQueryError (Gremlin req) (Bindings req)] else [])
  | inl _ =>
      UpdateVertex v w = updateVertexEdges v (afterSend req answer.2 w)
      ∧ ∃ rest,
          sent (UpdateVertex v w).2
          = sent w
              ++ req
                 :: Query "g.V(_id).bothE()"
                      {[ "_id" := VStr (Vertex.ID v) ]}
                 :: rest
  end.
Proof.
  intros Hl pq req answer. unfold Gremlin.UpdateVertex.
  rewrite decide_False by done. fold pq. subst req answer.
  destruct pq as [props bindings]. cbn [fst snd].
  unfold_M. rewrite Send_run.
  destruct (clientSend _ _) as [[data|e] c]; cbn [fst snd errOf].
  - split; [reflexivity|].
    match goal with
    | |- context [updateVertexEdges v ?w0] =>
        destruct (updateVertexEdges_sent v w0) as [l Hs]
    end.
    exists l. rewrite Hs. cbn [sent afterSend].
    by rewrite <- app_assoc.
  - destruct (decide (ClientError e = _)) as [Hd|Hd]; cbn [fst snd].
    + injection Hd as ->. by rewrite decide_True.
    + rewrite decide_False by congruence. by rewrite app_nil_r.
Qed.

(** X6.  [DeleteVertex] sends the one request that drops the vertex of
    the given id and returns what the client answers; it writes nothing
    to the log.  It depends on the id of the vertex only: it neither
    rejects a vertex without label nor looks at its properties or
    edges. *)
Theorem DeleteVertex_by_id_only (v : Vertex.t) w :
  let req := Query "g.V(_id).drop()" {[ "_id" := VStr (Vertex.ID v) ]} in
  let answer := clientSend req (client (backend w)) in
  DeleteVertex v w = (errOf answer.1, afterSend req answer.2 w)
  ∧ sent (DeleteVertex v w).2 = sent w ++ [req]
  ∧ logged (DeleteVertex v w).2 = logged w
  ∧ ∀ label properties outE inE,
      DeleteVertex (Vertex.mk (Vertex.ID v) label properties outE inE) w
      = DeleteVertex v w.
Proof.
  intros req answer. subst req answer.
  unfold Gremlin.DeleteVertex. unfold_M. cbn [Vertex.ID].
  rewrite Send_run.
  by destruct (clientSend _ _) as [[data|e] c].
Qed.

(** X7.  [UpdateVertexProperty] on a vertex with a label sends the one
    request that sets the property, with exactly the three parameters
    [_id], [_name] and [_value], and returns what the client answers; it
    reads and writes no edge and writes nothing to the log. *)
Theorem UpdateVertexProperty_single_request
    (v : Vertex.t) (name : string) (value : value) w :
  Vertex.Label v ≠ "" →
  ∃ req,
    UpdateVertexProperty v name value w
    = (errOf (clientSend req (client (backend w))).1,
       afterSend req (clientSend req (client (backend w))).2 w)
    ∧ Gremlin req = "g.V(_id).property(_name, _value).iterate()"
    ∧ Bindings req !! "_id" = Some (VStr (Vertex.ID v))
    ∧ Bindings req !! "_name" = Some (VStr name)
    ∧ Bindings req !! "_value" = Some value
    ∧ size (Bindings req) = 3
    ∧ sent (UpdateVertexProperty v name value w).2 = sent w ++ [req]
    ∧ logged (UpdateVertexProperty v name value w).2 = logged w.
Proof.
  intros Hl. unfold Gremlin.UpdateVertexProperty.
  rewrite decide_False by done. unfold_M. rewrite Send_run.
  exists (Query "g.V(_id).property(_name, _value).iterate()"
            (<["_value" := value]>
               (<["_name" := VStr name]>
                  (<["_id" := VStr (Vertex.ID v)]> ∅)))).
  split; [by destruct (clientSend _ _) as [[data|e] c]|].
  cbn [Gremlin Bindings]. split; [done|].
  repeat (split;
    [by repeat (rewrite lookup_insert_eq
                || rewrite lookup_insert_ne by done)|]).
  by destruct (clientSend _ _) as [[data|e] c].
Qed.

(** X8.  When the read of the current edges fails, [updateVertexEdges]
    returns the error of the client after that one request: no edge is
    created, updated or removed. *)
Theorem updateVertexEdges_read_failure (v : Vertex.t) w e c :
  let read := Query "g.V(_id).bothE()" {[ "_id" := VStr (Vertex.ID v) ]} in
  clientSend read (client (backend w)) = (inr e, c) →
  updateVertexEdges v w = (Some (ClientError e), afterSend read c w)
  ∧ sent (updateVertexEdges v w).2 = sent w ++ [read].
Proof.
  intros read Hread.
  unfold Gremlin.updateVertexEdges, Gremlin.diffVertexEdges,
    Gremlin.currentVertexEdges. unfold_M. rewrite Send_run.
  fold read. by rewrite Hread.
Qed.
End BackendRequests.

Lemma UpdateVertex_vertex_script_first_witness :
  ∃ rest,
    sent (UpdateVertex (Sample.sendOk "") (λ _, []) Sample.mapRange
            (Sample.vertexA "virtual_network") (Sample.world true)).2
    = Query (updateVertexHead +:+ ".iterate()")
        (<["_label" := VStr "virtual_network"]> (<["_id" := VStr "A"]> ∅))
      :: Query "g.V(_id).bothE()" {[ "_id" := VStr "A" ]} :: rest.
Proof.
  pose proof (UpdateVertex_vertex_script_first (Sample.sendOk "") (λ _, [])
                Sample.mapRange (Sample.vertexA "virtual_network")
                (Sample.world true)) as H.
  destruct H as [_ H]; [vm_compute; discriminate|exact H].
Defined.

Lemma UpdateVertexProperty_single_request_witness :
  ∃ req,
    sent (UpdateVertexProperty (Sample.sendOk "")
            (Sample.vertexA "virtual_network") "name" (VStr "n")
            (Sample.world true)).2 = [req]
    ∧ size (Bindings req) = 3.
Proof.
  destruct (UpdateVertexProperty_single_request (Sample.sendOk "")
              (Sample.vertexA "virtual_network") "name" (VStr "n")
              (Sample.world true))
    as (req & _ & _ & _ & _ & _ & Hsize & Hsent & _).
  - vm_compute. discriminate.
  - exists req. split; [exact Hsent|exact Hsize].
Defined.

Lemma updateVertexEdges_read_failure_witness :
  updateVertexEdges Sample.sendTimeout (λ _, []) Sample.mapRange
    (Sample.vertexA "virtual_network") (Sample.world true)
  = (Some (ClientError (ErrConnection "timeout")),
     afterSend (Query "g.V(_id).bothE()" {[ "_id" := VStr "A" ]}) tt
       (Sample.world true)).
Proof.
  apply (updateVertexEdges_read_failure Sample.sendTimeout (λ _, [])
           Sample.mapRange (Sample.vertexA "virtual_network")
           (Sample.world true) (ErrConnection "timeout") tt).
  reflexivity.
Defined.

(** ** Further properties of the edge diff *)

Section DiffInvariants.
Implicit Types desired current : list Edge.t.

Lemma filter_none {A} (P : A → Prop) `{!∀ x, Decision (P x)} (l : list A) :
  (∀ x, x ∈ l → ¬ P x) → filter P l = [].
Proof.
  induction l as [|x l IH]; intros Hl; [done|].
  rewrite filter_cons_False by (apply Hl; by left).
  apply IH. intros y Hy. apply Hl. by right.
Qed.

Lemma filter_all {A} (P : A → Prop) `{!∀ x, Decision (P x)} (l : list A) :
  (∀ x, x ∈ l → P x) → filter P l = l.
Proof.
  induction l as [|x l IH]; intros Hl; [done|].
  rewrite filter_cons_True by (apply Hl; by left).
  f_equal. apply IH. intros y Hy. apply Hl. by right.
Qed.

(** X9.  The three lists of the diff.  [toAdd] and [toUpdate] are
    sublists of Desired and [toRemove] is a sublist of Current, so the
    order of the edges is kept and nothing is invented.  The identity of
    an edge of [toAdd] is absent from Current, that of an edge of
    [toUpdate] is present in Current, and that of an edge of [toRemove]
    is absent from Desired; so no edge is both added and updated, and a
    removed edge shares its identity with no desired one.  A desired
    edge listed in neither [toAdd] nor [toUpdate] has an edge of its
    identity and with an equal property map in Current. *)
Theorem diffEdges_invariants desired current :
  let '(toAdd, toUpdate, toRemove) := diffEdges desired current in
  toAdd `sublist_of` desired
  ∧ toUpdate `sublist_of` desired
  ∧ toRemove `sublist_of` current
  ∧ (∀ d, d ∈ toAdd → ¬ present d current)
  ∧ (∀ d, d ∈ toUpdate → present d current)
  ∧ (∀ c, c ∈ toRemove → ¬ present c desired)
  ∧ (∀ d, d ∈ desired → d ∉ toAdd → d ∉ toUpdate →
          ∃ c, c ∈ current ∧ identity c = identity d
               ∧ Edge.Properties c = Edge.Properties d).
Proof.
  rewrite diffEdges_filters. unfold ToAdd, ToRemove.
  split; [apply sublist_filter|]. split; [apply sublist_filter|].
  split; [apply sublist_filter|].
  split; [by intros d [? _]%list_elem_of_filter|].
  split; [|split; [by intros c [? _]%list_elem_of_filter|]].
  - intros d [Hd _]%list_elem_of_filter.
    destruct (decide (present d current)) as [?|Hn]; [done|].
    apply matched_None in Hn. unfold differsFromMatch in Hd.
    by rewrite Hn in Hd.
  - intros d Hin Hadd Hupd.
    destruct (matched d current) as [c|] eqn:E.
    + apply matched_Some in E as Hc. destruct Hc as [Hc Hid].
      exists c. split; [done|]. split; [done|].
      destruct (decide (Edge.Properties c = Edge.Properties d))
        as [?|Hne]; [done|].
      destruct Hupd. apply list_elem_of_filter. split; [|done].
      unfold differsFromMatch. by rewrite E.
    + apply matched_None in E. destruct Hadd.
      by apply list_elem_of_filter.
Qed.

(** X10.  With no current edge every desired edge is added and nothing
    is updated or removed; with no desired edge every current edge is
    removed and nothing is added or updated. *)
Theorem diffEdges_empty_side (edges : list Edge.t) :
  diffEdges edges [] = (edges, [], [])
  ∧ diffEdges [] edges = ([], [], edges).
Proof.
  rewrite !diffEdges_filters. unfold ToAdd, ToRemove.
  assert (Habsent : ∀ d : Edge.t, ¬ present d []).
  { intros d. unfold present. rewrite fmap_nil. apply not_elem_of_nil. }
  rewrite !filter_nil.
  rewrite !filter_all by (intros; apply Habsent).
  rewrite filter_none by (intros d _ Hd; exact Hd).
  split; reflexivity.
Qed.

Lemma diffEdges_nothing_to_do desired current :
  NoDup (identity <$> current) →
  Forall (λ d, d ∈ current) desired →
  Forall (λ c, present c desired) current →
  diffEdges desired current = ([], [], []).
Proof.
  intros Hnd Hdes Hcur. rewrite diffEdges_filters.
  unfold ToAdd, ToRemove. rewrite Forall_forall in Hdes, Hcur.
  rewrite !filter_none; [done|..].
  - intros c Hc Hn. by apply Hn, Hcur.
  - intros d Hd Hdiff.
    apply differsFromMatch_differs in Hdiff; [|done].
    apply Exists_exists in Hdiff as (c & Hc & Hid & Hne).
    apply Hne. f_equal.
    by apply (NoDup_fmap_eq identity current); [| |apply Hdes|].
  - intros d Hd Hn. apply Hn. by apply list_elem_of_fmap_2, Hdes.
Qed.

(** X11.  The diff of a store that is in line with the vertex is empty:
    when no two current edges share an identity, every desired edge is
    one of the current edges and every current edge has the identity of
    a desired one, nothing is to be added, updated or removed. *)
Theorem diffEdges_in_sync desired current :
  NoDup (identity <$> current) →
  Forall (λ d, d ∈ current) desired →
  Forall (λ c, present c desired) current →
  diffEdges desired current = ([], [], []).
Proof. apply diffEdges_nothing_to_do. Qed.
End DiffInvariants.

Lemma diffEdges_in_sync_witness :
  diffEdges [Sample.edgeAB ∅; Sample.edgeAC] [Sample.edgeAC; Sample.edgeAB ∅]
  = ([], [], []).
Proof.
  apply diffEdges_in_sync.
  - by_compute.
  - by_compute.
  - by_compute.
Defined.

Section Reconcile.
Context {T O : Type}.
Variable clientSend : Request → T → (string + client_error) * T.
Variable unmarshalEdges : string → list Edge.t.
Variable mapRange : ∀ V : Type, gmap string V → list (string * V).

Implicit Types w : World (T := T) (O := O).

Local Notation updateVertexEdges :=
  (updateVertexEdges clientSend unmarshalEdges mapRange).

(** X12.  Reconciling a vertex whose edges are in the store already
    only reads: when the read answers with current edges of which no two
    share an identity, every desired edge is one of them and each of
    them has the identity of a desired edge, [updateVertexEdges] returns
    without an error after that one request. *)
Theorem updateVertexEdges_in_sync_only_reads (v : Vertex.t) w data c :
  let read := Query "g.V(_id).bothE()" {[ "_id" := VStr (Vertex.ID v) ]} in
  clientSend read (client (backend w)) = (inl data, c) →
  NoDup (identity <$> unmarshalEdges data) →
  Forall (λ d, d ∈ unmarshalEdges data) (vertexEdges mapRange v) →
  Forall (λ c, present c (vertexEdges mapRange v)) (unmarshalEdges data) →
  updateVertexEdges v w = (None, afterSend read c w)
  ∧ sent (updateVertexEdges v w).2 = sent w ++ [read].
Proof.
  intros read Hread Hnd Hdes Hcur.
  unfold Gremlin.updateVertexEdges, Gremlin.diffVertexEdges,
    Gremlin.currentVertexEdges. unfold_M. rewrite Send_run.
  fold read. rewrite Hread. cbn [fst snd].
  by rewrite (diffEdges_nothing_to_do _ _ Hnd Hdes Hcur).
Qed.
End Reconcile.

Lemma updateVertexEdges_in_sync_only_reads_witness :
  sent (updateVertexEdges (Sample.sendOk "")
          (λ _, [Sample.edgeAC; Sample.edgeAB {[ "p" := mkProperty (VNum 2) ]}])
          Sample.mapRange (Sample.vertexA "virtual_network")
          (Sample.world true)).2
  = [Query "g.V(_id).bothE()" {[ "_id" := VStr "A" ]}].
Proof.
  apply (updateVertexEdges_in_sync_only_reads (Sample.sendOk "")
           (λ _, [Sample.edgeAC;
                  Sample.edgeAB {[ "p" := mkProperty (VNum 2) ]}])
           Sample.mapRange (Sample.vertexA "virtual_network")
           (Sample.world true) "" tt).
  - reflexivity.
  - by_compute.
  - by_compute.
  - by_compute.
Defined.

(** ** Further properties of the query generators *)

Section BindNames.

Lemma bindAll_app kvs1 kvs2 b :
  bindAll (kvs1 ++ kvs2) b = bindAll kvs2 (bindAll kvs1 b).
Proof. unfold bindAll. by rewrite fold_left_app. Qed.

Lemma bindAll_not_elem kvs b k :
  k ∉ kvs.*1 → bindAll kvs b !! k = b !! k.
Proof.
  revert b. induction kvs as [|[k' x] kvs IH]; intros b Hk; [done|].
  change (bindAll ((k', x) :: kvs) b) with (bindAll kvs (<[k' := x]> b)).
  rewrite IH.
  - apply lookup_insert_ne. intros ->. apply Hk. by left.
  - intros Hin. apply Hk. by right.
Qed.

Lemma strLess_asym a b : strLess a b = true → strLess b a = true → False.
Proof.
  intros [H1 Hne]%strLess_true_lt [H2 _]%strLess_true_lt.
  apply Hne. by apply (anti_symm String.le).
Qed.

Lemma edgeBindName_eq p q :
  edgeBindName q = edgeBindName p ↔ ReplaceDots q = ReplaceDots p.
Proof.
  unfold edgeBindName. split; [|by intros ->].
  change ("_" +:+ ReplaceDots q) with (String "_" (ReplaceDots q)).
  change ("_" +:+ ReplaceDots p) with (String "_" (ReplaceDots p)).
  by intros [= ->].
Qed.

(** Of the properties that share a parameter name, the one whose name
    comes last in the order of the strings is written last. *)
Lemma edgeBindings_last_write
    (propList : gmap string Property) (iter : list (string * Property))
    (p : string) (prop : Property) :
  iter ≡ₚ map_to_list propList →
  propList !! p = Some prop → Value prop ≠ VNil →
  (∀ q prop',
     propList !! q = Some prop' → Value prop' ≠ VNil → q ≠ p →
     ReplaceDots q = ReplaceDots p → strLess q p = true) →
  (edgePropertiesQuery iter propList).2 !! edgeBindName p
  = Some (Value prop).
Proof.
  intros Hp Hprop Hnn Hmax. rewrite edgePropertiesQuery_names. cbn [snd].
  pose proof (λ q, edge_names_elem iter propList q Hp) as Hnames.
  assert (Hs : lexSorted (SliceStable strLess (filter nonNil iter).*1))
    by apply SliceStable_strict, (edge_names_NoDup _ propList Hp).
  set (names := SliceStable strLess (filter nonNil iter).*1) in *.
  assert (Hin : p ∈ names) by (apply Hnames; eauto).
  apply list_elem_of_split in Hin as (l1 & l2 & Heq).
  rewrite Heq in Hs |- *.
  rewrite fmap_app, fmap_cons, bindAll_app.
  match goal with
  | |- bindAll (?kv :: ?kvs) ?b !! _ = _ =>
      change (bindAll (kv :: kvs) b) with (bindAll kvs (<[kv.1 := kv.2]> b))
  end.
  rewrite bindAll_not_elem.
  - cbn [edgeBinding fst snd]. rewrite lookup_insert_eq.
    by rewrite (lookup_total_correct _ _ _ Hprop).
  - rewrite <- list_fmap_compose. intros (q & Hq & Hin)%list_elem_of_fmap.
    cbn in Hq. symmetry in Hq. apply edgeBindName_eq in Hq.
    apply StronglySorted_app_1_r, StronglySorted_inv in Hs as [_ Hall].
    rewrite Forall_forall in Hall. specialize (Hall q Hin).
    assert (q ∈ names) as (prop' & Hprop' & Hnn')%Hnames.
    { rewrite Heq. apply elem_of_app. right. by right. }
    apply (strLess_asym p q); [done|].
    apply (Hmax q prop'); [done..| |done].
    intros ->. apply strLess_true_lt in Hall as [_ Hne]. done.
Qed.

(** X13.  When several properties of an edge give the same parameter
    name, the parameter is bound to the value of the one whose name is
    the greatest: a property that is not nil and whose name is above the
    names of the other properties of its parameter name has its value
    bound. *)
Theorem edge_binding_greatest_name_wins
    (propList : gmap string Property) (iter : list (string * Property))
    (p : string) (prop : Property) :
  iter ≡ₚ map_to_list propList →
  propList !! p = Some prop → Value prop ≠ VNil →
  (∀ q prop',
     propList !! q = Some prop' → Value prop' ≠ VNil → q ≠ p →
     edgeBindName q = edgeBindName p → strLess q p = true) →
  (edgePropertiesQuery iter propList).2 !! edgeBindName p
  = Some (Value prop).
Proof.
  intros Hp Hprop Hnn Hmax. apply edgeBindings_last_write; [done..|].
  intros q prop' Hq Hnn' Hne Heq. apply (Hmax q prop'); [done..|].
  by apply edgeBindName_eq.
Qed.

Lemma ReplaceDots_idem p : ReplaceDots (ReplaceDots p) = ReplaceDots p.
Proof.
  induction p as [|c p IH]; [done|]. cbn [ReplaceDots]. rewrite IH.
  destruct (Ascii.eqb c ".") eqn:E; [done|]. by rewrite E.
Qed.

(** A name with a dot is below the name with the dots replaced. *)
Lemma strLess_ReplaceDots p :
  ReplaceDots p ≠ p → strLess p (ReplaceDots p) = true.
Proof.
  unfold strLess, String.ltb.
  induction p as [|c p IH]; [done|]. cbn [ReplaceDots String.compare].
  destruct (Ascii.eqb c ".") eqn:E.
  - apply Ascii.eqb_eq in E as ->. done.
  - intros Hne. unfold Ascii.compare. rewrite N.compare_refl.
    apply IH. congruence.
Qed.

(** X14.  An edge property with a dotted name and the property named
    with the dots replaced by underscores share their parameter.  When
    both are on the edge and no third property has that parameter name,
    the parameter is bound to the value of the underscored one, so the
    script sets the dotted property to that value as well. *)
Theorem dotted_edge_property_takes_twin_value
    (propList : gmap string Property) (iter : list (string * Property))
    (p : string) (prop twin : Property) :
  iter ≡ₚ map_to_list propList →
  ReplaceDots p ≠ p →
  propList !! p = Some prop → Value prop ≠ VNil →
  propList !! ReplaceDots p = Some twin → Value twin ≠ VNil →
  (∀ q prop',
     propList !! q = Some prop' → Value prop' ≠ VNil →
     edgeBindName q = edgeBindName p → q = p ∨ q = ReplaceDots p) →
  edgeBindName (ReplaceDots p) = edgeBindName p
  ∧ (∃ names1 names2,
       (edgePropertiesQuery iter propList).1
       = joinStrings (edgeFragment <$> names1)
           +:+ edgeFragment p
           +:+ joinStrings (edgeFragment <$> names2))
  ∧ (edgePropertiesQuery iter propList).2 !! edgeBindName p
    = Some (Value twin).
Proof.
  intros Hp Hdot Hprop Hnn Htwin Hnn' Honly.
  assert (Hbn : edgeBindName (ReplaceDots p) = edgeBindName p).
  { apply edgeBindName_eq, ReplaceDots_idem. }
  split; [done|]. split.
  - rewrite edgePropertiesQuery_names. cbn [fst].
    assert (Hin : p ∈ SliceStable strLess (filter nonNil iter).*1)
      by (apply (edge_names_elem _ propList _ Hp); eauto).
    apply list_elem_of_split in Hin as (l1 & l2 & ->).
    exists l1, l2.
    by rewrite fmap_app, fmap_cons, joinStrings_app.
  - rewrite <- Hbn. apply edgeBindings_last_write; [done..|].
    intros q prop' Hq Hnnq Hne Heq.
    rewrite ReplaceDots_idem in Heq. apply edgeBindName_eq in Heq.
    destruct (Honly q prop' Hq Hnnq Heq) as [-> | ->]; [|done].
    by apply strLess_ReplaceDots.
Qed.

Lemma noDot_String c s : c ≠ "."%char → noDot s → noDot (String c s).
Proof.
  unfold noDot. cbn [String.list_ascii_of_string].
  intros Hc Hs [H|H]%elem_of_cons; [congruence|done].
Qed.

Lemma noDot_app s1 s2 : noDot s1 → noDot s2 → noDot (s1 +:+ s2).
Proof.
  intros H1 H2. induction s1 as [|c s1 IH]; [done|].
  change (String c s1 +:+ s2) with (String c (s1 +:+ s2)).
  unfold noDot in H1. cbn [String.list_ascii_of_string] in H1.
  apply not_elem_of_cons in H1 as [Hc H1].
  apply noDot_String; [done|]. by apply IH.
Qed.

Lemma ReplaceDots_noDot p : noDot (ReplaceDots p).
Proof.
  induction p as [|c p IH]; [apply not_elem_of_nil|].
  cbn [ReplaceDots]. apply noDot_String; [|done].
  destruct (Ascii.eqb c ".") eqn:E; [done|]. by apply Ascii.eqb_neq.
Qed.

Lemma pretty_N_go_noDot (x : N) s : noDot s → noDot (pretty_N_go x s).
Proof.
  revert s. induction (N.lt_wf_0 x) as [x _ IH]; intros s Hs.
  assert (x = 0 ∨ 0 < x)%N as [->|?] by lia.
  - by rewrite pretty_N_go_0.
  - rewrite pretty_N_go_step by done. apply IH.
    { by apply N.div_lt. }
    apply noDot_String; [|done].
    unfold pretty_N_char. by repeat case_match.
Qed.

Lemma pretty_nat_noDot (i : nat) : noDot (pretty i).
Proof.
  unfold pretty, pretty_nat, pretty, pretty_N.
  destruct (decide _).
  - apply noDot_String; [done|]. apply not_elem_of_nil.
  - apply pretty_N_go_noDot, not_elem_of_nil.
Qed.

(** X15.  No parameter name that the generators make up holds a dot,
    whatever the name of the property. *)
Theorem bind_names_hold_no_dot (propName : string) (i : nat) :
  noDot (vertexBindName propName i) ∧ noDot (edgeBindName propName).
Proof.
  assert (Hu : noDot "_").
  { apply noDot_String; [done|]. apply not_elem_of_nil. }
  unfold vertexBindName, edgeBindName. split.
  - repeat apply noDot_app;
      auto using ReplaceDots_noDot, pretty_nat_noDot.
  - apply noDot_app; auto using ReplaceDots_noDot.
Qed.
End BindNames.

Lemma edge_binding_greatest_name_wins_witness :
  (edgePropertiesQuery
     [("a_b", mkProperty (VNum 2)); ("a.b", mkProperty (VNum 1))]
     (<["a_b" := mkProperty (VNum 2)]> {["a.b" := mkProperty (VNum 1)]})).2
    !! edgeBindName "a_b"
  = Some (VNum 2).
Proof.
  apply (edge_binding_greatest_name_wins
           (<["a_b" := mkProperty (VNum 2)]> {["a.b" := mkProperty (VNum 1)]})
           [("a_b", mkProperty (VNum 2)); ("a.b", mkProperty (VNum 1))]
           "a_b" (mkProperty (VNum 2))).
  - by_compute.
  - reflexivity.
  - discriminate.
  - intros q prop' Hq _ Hne _.
    destruct (decide (q = "a.b")) as [->|Hne']; [reflexivity|].
    rewrite lookup_insert_ne in Hq by done.
    rewrite lookup_singleton_ne in Hq by done. discriminate.
Defined.

Lemma dotted_edge_property_takes_twin_value_witness :
  (edgePropertiesQuery
     [("a_b", mkProperty (VNum 2)); ("a.b", mkProperty (VNum 1))]
     (<["a_b" := mkProperty (VNum 2)]> {["a.b" := mkProperty (VNum 1)]})).2
    !! edgeBindName "a.b"
  = Some (VNum 2).
Proof.
  apply (dotted_edge_property_takes_twin_value
           (<["a_b" := mkProperty (VNum 2)]> {["a.b" := mkProperty (VNum 1)]})
           [("a_b", mkProperty (VNum 2)); ("a.b", mkProperty (VNum 1))]
           "a.b" (mkProperty (VNum 1)) (mkProperty (VNum 2))).
  - by_compute.
  - discriminate.
  - reflexivity.
  - discriminate.
  - reflexivity.
  - discriminate.
  - intros q prop' Hq _ _.
    destruct (decide (q = "a.b")) as [->|Hne]; [by left|].
    destruct (decide (q = "a_b")) as [->|Hne']; [by right|].
    rewrite lookup_insert_ne in Hq by done.
    rewrite lookup_singleton_ne in Hq by done. discriminate.
Defined.

(** ** The neutron gateway *)

Import Neutron.

(** Unfolds the sequencing of the state transformers of the gateway. *)
Ltac unfold_N :=
  unfold mbind, mret, N_bind, N_ret, log, contrailClientDo,
    backendIsConnected in *.

Section FilterFacts.
Variable jsonUnmarshalMap : string → option (list (string * json)).

(** C4 at the failing input.  For the filter map [{a: {b: x}}],
    whose nested value is a string and not a list, [UnmarshalJSON] does
    not return: the type assertion on the nested value panics. *)
Theorem UnmarshalJSON_nested_scalar_panics
    (data : string) (f : gmap string (list json))
    (logged : list LogEntry) :
  jsonUnmarshalMap data = Some [("a", JObject [("b", JString "x")])] →
  UnmarshalJSON jsonUnmarshalMap data f logged
  = Panicked "interface conversion: interface {} is not []interface {}".
Proof. intros H. unfold UnmarshalJSON. rewrite H. reflexivity. Qed.
End FilterFacts.

Lemma UnmarshalJSON_nested_scalar_panics_witness :
  UnmarshalJSON
    (SampleGateway.filtersDecodeTo [("a", JObject [("b", JString "x")])])
    "" ∅ []
  = Panicked "interface conversion: interface {} is not []interface {}".
Proof.
  apply (UnmarshalJSON_nested_scalar_panics
           (SampleGateway.filtersDecodeTo
              [("a", JObject [("b", JString "x")])])).
  reflexivity.
Defined.

Section GatewayFacts.
Context {T O U : Type}.
Variable CanonicalHeaderKey : string → string.
Variable newRequestError : string → option string.
Variable clientDo : Outbound.t → U → (Response.t + string) * U.
Variable unmarshalRequest : string → Request → outcome (Request + string).
Variable mapRange : ∀ V : Type, gmap string V → list (string * V).

Implicit Types s : AppState (T := T) (O := O) (U := U).
Implicit Types a : App (T := T) (O := O) (U := U).

Local Notation copyHeaders := (copyHeaders CanonicalHeaderKey mapRange).
Local Notation forward :=
  (forward CanonicalHeaderKey newRequestError clientDo mapRange).
Local Notation handler :=
  (handler CanonicalHeaderKey newRequestError clientDo unmarshalRequest
     mapRange).
Local Notation forwardedRequest :=
  (Spec.forwardedRequest CanonicalHeaderKey mapRange).
Local Notation fallbackTaken := (Spec.fallbackTaken unmarshalRequest).

Lemma headerAdd_values k vv (dst : gmap string (list string)) k' :
  CanonicalHeaderKey k = k →
  fold_left (λ dst v, headerAdd CanonicalHeaderKey k v dst) vv dst !!! k'
  = if decide (k = k') then dst !!! k' ++ vv else dst !!! k'.
Proof.
  intros Hk. revert dst. induction vv as [|v vv IH]; intros dst.
  - cbn [fold_left]. destruct (decide _); [by rewrite app_nil_r|done].
  - cbn [fold_left]. rewrite IH. unfold headerAdd. rewrite Hk.
    destruct (decide (k = k')) as [->|Hne].
    + rewrite lookup_total_insert_eq. by rewrite <- app_assoc.
    + by rewrite lookup_total_insert_ne.
Qed.

Lemma copy_values (iter : list (string * list string))
    (dst : gmap string (list string)) k' :
  NoDup iter.*1 →
  (∀ kvv, kvv ∈ iter → CanonicalHeaderKey kvv.1 = kvv.1) →
  fold_left
    (λ dst (kvv : string * list string),
       fold_left (λ dst v, headerAdd CanonicalHeaderKey kvv.1 v dst)
         kvv.2 dst)
    iter dst !!! k'
  = dst !!! k'
      ++ default [] ((list_to_map iter : gmap string (list string)) !! k').
Proof.
  revert dst. induction iter as [|[k vv] iter IH]; intros dst Hnd Hcan.
  - cbn. by rewrite app_nil_r.
  - rewrite fmap_cons in Hnd. apply NoDup_cons in Hnd as [Hk Hnd].
    cbn [fold_left list_to_map foldr fst snd curry].
    rewrite IH; [|done|intros kvv Hin; apply Hcan; by right].
    rewrite headerAdd_values by (apply (Hcan (k, vv)); by left).
    destruct (decide (k = k')) as [<-|Hne].
    + rewrite lookup_insert_eq.
      rewrite (not_elem_of_list_to_map_1 iter k Hk). cbn.
      by rewrite app_nil_r.
    + by rewrite lookup_insert_ne.
Qed.

(** Copying a header map with canonical keys into an empty one gives
    every key the values it has in the source. *)
Lemma copyHeaders_values (src : gmap string (list string)) k :
  (∀ V (m : gmap string V), mapRange V m ≡ₚ map_to_list m) →
  (∀ k, is_Some (src !! k) → CanonicalHeaderKey k = k) →
  copyHeaders src ∅ !!! k = src !!! k.
Proof.
  intros Hrange Hcan. unfold Neutron.copyHeaders.
  rewrite copy_values.
  - rewrite lookup_total_empty, app_nil_l.
    assert (list_to_map (mapRange _ src) = src) as ->.
    { rewrite <- (list_to_map_to_list src) at 2.
      apply list_to_map_proper; [|apply Hrange].
      rewrite Hrange. apply NoDup_fst_map_to_list. }
    by rewrite lookup_total_alt.
  - rewrite Hrange. apply NoDup_fst_map_to_list.
  - intros [k0 vv] Hin. apply Hcan. rewrite Hrange in Hin.
    apply elem_of_map_to_list in Hin. simpl. eauto.
Qed.

Lemma forward_sent a w r body s :
  newRequestError (contrailAPIURL a +:+ Inbound.URLPath r) = None →
  forwarded (forward a w r body s).2
  = forwarded s ++ [forwardedRequest a r body].
Proof.
  intros Hurl. unfold Neutron.forward, NewRequest. rewrite Hurl.
  unfold_N. cbn [Outbound.Method Outbound.URL Outbound.Header Outbound.Body].
  fold (forwardedRequest a r body).
  destruct (clientDo _ _) as [[resp|err] u]; cbn; [|done].
  by destruct (failure (Response.Body resp)).
Qed.

Lemma forward_response a w r body s resp u :
  newRequestError (contrailAPIURL a +:+ Inbound.URLPath r) = None →
  clientDo (forwardedRequest a r body) (upstream s) = (inl resp, u) →
  failure (Response.Body resp) = None →
  (forward a w r body s).1
  = (ioCopy
       (ResponseWriter.WriteHeader (Response.StatusCode resp)
          (ResponseWriter.setHeader
             (copyHeaders (Response.Header resp) (ResponseWriter.Header w))
             w))
       (Response.Body resp)).1.
Proof.
  intros Hurl Hdo Hok. unfold Neutron.forward, NewRequest. rewrite Hurl.
  unfold_N. cbn [Outbound.Method Outbound.URL Outbound.Header Outbound.Body].
  fold (forwardedRequest a r body). cbn [upstream]. rewrite Hdo.
  unfold ioCopy. rewrite Hok. reflexivity.
Qed.

Lemma handler_fallback a r s :
  fallbackTaken a r s →
  ∃ s', handler a ResponseWriter.fresh r s
        = (let '(w, s'') := forward a ResponseWriter.fresh r
                              (Inbound.Body r) s' in
           (Returned w, s''))
        ∧ forwarded s' = forwarded s ∧ upstream s' = upstream s.
Proof.
  intros [Hdis|(Hcon & Hread & req & Hdec & Hnone)];
    unfold Neutron.handler; unfold_N; rewrite ?Hdis, ?Hcon; cbn [negb].
  - exists s. done.
  - unfold ReadAll. rewrite Hread, Hdec. cbn. rewrite Hnone.
    exists (mkAppState (world s) (upstream s) (forwarded s)
              (logged s ++ [LogRequest req])).
    split; [|split; reflexivity].
    replace (NewReader (content (Inbound.Body r))) with (Inbound.Body r);
      [reflexivity|].
    destruct (Inbound.Body r) as [c f]. cbn in *. by subst.
Qed.

(** C3, as the code has it.  On the fallback path exactly one request
    goes upstream: a POST, whatever the method of the inbound request,
    to the configured base followed by the inbound path, with the
    values of every inbound header and with the inbound body.  When the
    upstream service answers and its body is read to the end, the
    caller gets the upstream status, the values of every upstream header
    and the upstream body. *)
Theorem fallback_forwards_as_post a (r : Inbound.t) s :
  (∀ V (m : gmap string V), mapRange V m ≡ₚ map_to_list m) →
  (∀ k, is_Some (Inbound.Header r !! k) → CanonicalHeaderKey k = k) →
  fallbackTaken a r s →
  newRequestError (contrailAPIURL a +:+ Inbound.URLPath r) = None →
  ∃ req,
    forwarded (handler a ResponseWriter.fresh r s).2
    = forwarded s ++ [req]
    ∧ Outbound.Method req = "POST"
    ∧ Outbound.URL req = contrailAPIURL a +:+ Inbound.URLPath r
    ∧ (∀ k, Outbound.Header req !!! k = Inbound.Header r !!! k)
    ∧ Outbound.Body req = Inbound.Body r
    ∧ ∀ resp u,
        clientDo req (upstream s) = (inl resp, u) →
        (∀ k, is_Some (Response.Header resp !! k) →
              CanonicalHeaderKey k = k) →
        failure (Response.Body resp) = None →
        ∃ w h,
          (handler a ResponseWriter.fresh r s).1 = Returned w
          ∧ ResponseWriter.wroteHeader w
            = Some (Response.StatusCode resp, h)
          ∧ (∀ k, h !!! k = Response.Header resp !!! k)
          ∧ ResponseWriter.written w = content (Response.Body resp).
Proof.
  intros Hrange Hcan Hfall Hurl.
  destruct (handler_fallback a r s Hfall) as (s' & -> & Hfwd & Hup).
  exists (forwardedRequest a r (Inbound.Body r)).
  pose proof (forward_sent a ResponseWriter.fresh r (Inbound.Body r) s'
                Hurl) as Hsent.
  split; [|split; [done|split; [done|split; [|split; [done|]]]]].
  - destruct (forward _ _ _ _ s') as [w s'']. cbn in *. by rewrite <- Hfwd.
  - intros k. by apply copyHeaders_values.
  - intros resp u Hdo Hcan' Hok. rewrite <- Hup in Hdo.
    pose proof (forward_response a ResponseWriter.fresh r (Inbound.Body r)
                  s' resp u Hurl Hdo Hok) as Hresp.
    destruct (forward _ _ _ _ s') as [w s'']. cbn [fst] in *. subst w.
    eexists _, (copyHeaders (Response.Header resp) ∅).
    split; [reflexivity|]. unfold ioCopy. cbn [fst].
    split; [|split].
    + by destruct (decide _).
    + intros k. by apply copyHeaders_values.
    + destruct (decide (content (Response.Body resp) = "")) as [->|?];
        reflexivity.
Qed.
End GatewayFacts.

Lemma fallback_forwards_as_post_witness :
  ∃ req,
    forwarded
      (handler SampleGateway.canonical SampleGateway.noURLError
         (SampleGateway.upstreamAnswers SampleGateway.okResponse)
         (SampleGateway.decodesTo
            (mkRequest (mkRequestContext "port" "READALL" "" "" "" false)
               (mkRequestData "" [] ∅)))
         Sample.mapRange SampleGateway.app ResponseWriter.fresh
         SampleGateway.getPorts (SampleGateway.state false)).2
    = [req]
    ∧ Outbound.Method req = "POST"
    ∧ Outbound.URL req = "http://localhost:8082/neutron/port".
Proof.
  destruct (fallback_forwards_as_post SampleGateway.canonical
              SampleGateway.noURLError
              (SampleGateway.upstreamAnswers SampleGateway.okResponse)
              (SampleGateway.decodesTo
                 (mkRequest (mkRequestContext "port" "READALL" "" "" "" false)
                    (mkRequestData "" [] ∅)))
              Sample.mapRange SampleGateway.app SampleGateway.getPorts
              (SampleGateway.state false))
    as (req & Hsent & Hm & Hu & _).
  - intros V m. reflexivity.
  - intros k _. reflexivity.
  - left. reflexivity.
  - reflexivity.
  - exists req. auto.
Defined.

(** C3, as stated, fails: a GET that takes the fallback path goes upstream
    as a POST. *)
Lemma forward_replaces_method :
  Outbound.Method <$>
    last (forwarded
            (handler SampleGateway.canonical SampleGateway.noURLError
               (SampleGateway.upstreamAnswers SampleGateway.okResponse)
               (SampleGateway.decodesTo
                  (mkRequest
                     (mkRequestContext "port" "READALL" "" "" "" false)
                     (mkRequestData "" [] ∅)))
               Sample.mapRange SampleGateway.app ResponseWriter.fresh
               SampleGateway.getPorts (SampleGateway.state false)).2)
  = Some "POST"
  ∧ Inbound.Method SampleGateway.getPorts = "GET".
Proof. split; vm_compute; reflexivity. Qed.

(** ** Further properties of the filter decoding *)

Section FilterDecoding.
Import FilterSpec.
Variable jsonUnmarshalMap : string → option (list (string * json)).

Local Notation write :=
  (λ (f : gmap string (list json)) (kv : string * list json),
     <[kv.1 := kv.2]> f).
Local Notation panic :=
  (Panicked "interface conversion: interface {} is not []interface {}").

Lemma promoteInner_run inner (f : gmap string (list json)) :
  promoteInner inner f
  = if decide (Forall (λ fkv, isArray fkv.2) inner)
    then Returned (fold_left write (arrayEntries inner) f)
    else panic.
Proof.
  revert f. induction inner as [|[fk fv] inner IH]; intros f.
  - by rewrite decide_True.
  - cbn [promoteInner]. destruct fv as [| | | |l|];
      try (rewrite decide_False; [done|];
           intros [H _]%Forall_cons; exact H).
    rewrite IH. destruct (decide (Forall _ inner)) as [Hall|Hn].
    + rewrite decide_True; [done|]. by apply Forall_cons.
    + rewrite decide_False; [done|]. by intros [_ H]%Forall_cons.
Qed.

Lemma rangeFilters_run filters (f : gmap string (list json)) logged :
  rangeFilters filters f logged
  = if decide (nestedAreLists filters)
    then Returned (fold_left write (filterWrites filters) f,
                   logged ++ unhandled filters)
    else panic.
Proof.
  unfold nestedAreLists, filterWrites, unhandled.
  revert f logged. induction filters as [|[k v] filters IH];
    intros f logged.
  - rewrite decide_True by done. cbn. by rewrite app_nil_r.
  - cbn [rangeFilters]. rewrite bind_cons, fold_left_app. cbn [fst snd].
    destruct v as [|b|n|s|l|inner];
      try (rewrite IH, filter_cons_True by done;
           destruct (decide (Forall _ filters)) as [Hall|Hn];
           [rewrite decide_True by (by apply Forall_cons);
            by rewrite fmap_cons, <- app_assoc
           |rewrite decide_False; [done|];
            by intros [_ H]%Forall_cons]).
    + rewrite IH, filter_cons_False by (intros H; exact H).
      destruct (decide (Forall _ filters)) as [Hall|Hn].
      * rewrite decide_True by (by apply Forall_cons). done.
      * rewrite decide_False; [done|]. by intros [_ H]%Forall_cons.
    + rewrite promoteInner_run.
      destruct (decide (Forall _ inner)) as [Hin|Hin].
      * rewrite IH, filter_cons_False by (intros H; exact H).
        destruct (decide (Forall _ filters)) as [Hall|Hn].
        -- rewrite decide_True by (by apply Forall_cons). done.
        -- rewrite decide_False; [done|]. by intros [_ H]%Forall_cons.
      * rewrite decide_False; [done|]. by intros [H _]%Forall_cons.
Qed.

Lemma fold_write_union (writes : list (string * list json))
    (f : gmap string (list json)) :
  fold_left write writes f = list_to_map (reverse writes) ∪ f.
Proof.
  revert f. induction writes as [|[k l] writes IH]; intros f.
  - cbn. by rewrite (left_id ∅ (∪)).
  - cbn [fold_left fst snd]. rewrite IH, reverse_cons, list_to_map_app.
    cbn [list_to_map foldr fst snd curry].
    rewrite <- (assoc_L (∪)). f_equal.
    by rewrite insert_union_singleton_l.
Qed.

(** X16.  [UnmarshalJSON] panics exactly when the data decode to a map
    in which some object holds a value that is not a list; on any other
    input it returns. *)
Theorem UnmarshalJSON_panics_iff
    (data : string) (f : gmap string (list json))
    (logged : list LogEntry) :
  (∃ msg, UnmarshalJSON jsonUnmarshalMap data f logged = Panicked msg)
  ↔ ∃ filters k inner fk fv,
      jsonUnmarshalMap data = Some filters
      ∧ (k, JObject inner) ∈ filters ∧ (fk, fv) ∈ inner ∧ ¬ isArray fv.
Proof.
  unfold UnmarshalJSON. destruct (jsonUnmarshalMap data) as [filters|].
  2: { split; [by intros [msg ?]|]. by intros (? & ? & ? & ? & ? & ? & _). }
  rewrite rangeFilters_run.
  destruct (decide (nestedAreLists filters)) as [Hall|Hn].
  - split; [by intros [msg ?]|].
    intros (? & k & inner & fk & fv & [= <-] & Hk & Hfk & Hfv).
    unfold nestedAreLists in Hall. rewrite Forall_forall in Hall.
    specialize (Hall _ Hk). cbn in Hall. rewrite Forall_forall in Hall.
    destruct Hfv. apply (Hall _ Hfk).
  - split; [|by eauto]. intros _. exists filters.
    apply (not_Forall_Exists _) in Hn.
    apply Exists_exists in Hn as ([k v] & Hk & Hv). cbn in Hv.
    destruct v as [| | | | |inner]; try (by destruct Hv).
    apply (not_Forall_Exists _) in Hv.
    apply Exists_exists in Hv as ([fk fv] & Hfk & Hfv).
    by exists k, inner, fk, fv.
Qed.

(** X17.  What [UnmarshalJSON] leaves in the receiver.  Data that do
    not decode to a map are passed over: no error is returned, the
    receiver keeps its filters and nothing is logged.  When the data
    decode and every value nested in an object is a list, the call
    returns no error; a list is stored under its key, the lists nested
    in an object are stored under their nested keys and the key of the
    object is not stored, a later entry replaces an earlier one and the
    value the receiver had, and every other key of the receiver keeps
    its value.  A value that is neither a list nor an object is stored
    nowhere and gets one log entry. *)
Theorem UnmarshalJSON_receiver
    (data : string) (f : gmap string (list json))
    (logged : list LogEntry) :
  match jsonUnmarshalMap data with
  | None =>
      UnmarshalJSON jsonUnmarshalMap data f logged
      = Returned (None, f, logged)
  | Some filters =>
      nestedAreLists filters →
      UnmarshalJSON jsonUnmarshalMap data f logged
      = Returned (None, list_to_map (reverse (filterWrites filters)) ∪ f,
                  logged ++ unhandled filters)
  end.
Proof.
  unfold UnmarshalJSON.
  destruct (jsonUnmarshalMap data) as [filters|]; [|done].
  intros Hall. rewrite rangeFilters_run.
  rewrite decide_True by done. by rewrite fold_write_union.
Qed.
End FilterDecoding.

Lemma UnmarshalJSON_receiver_witness :
  UnmarshalJSON
    (SampleGateway.filtersDecodeTo
       [("name", JArray [JString "n1"]);
        ("shared", JBool true);
        ("wrapped", JObject [("id", JArray [JString "i1"])])])
    "" {[ "name" := [JString "old"] ]} []
  = Returned
      (None,
       <["id" := [JString "i1"]]> {[ "name" := [JString "n1"] ]},
       [LogCantHandleFilter "shared" (JBool true)]).
Proof.
  etrans.
  - apply (UnmarshalJSON_receiver
             (SampleGateway.filtersDecodeTo
                [("name", JArray [JString "n1"]);
                 ("shared", JBool true);
                 ("wrapped", JObject [("id", JArray [JString "i1"])])])
             "" {[ "name" := [JString "old"] ]} []).
    by_compute.
  - vm_compute. reflexivity.
Defined.

(** ** Further properties of the gateway *)

Section GatewayRouting.
Context {T O U : Type}.
Variable CanonicalHeaderKey : string → string.
Variable newRequestError : string → option string.
Variable clientDo : Outbound.t → U → (Response.t + string) * U.
Variable unmarshalRequest : string → Request → outcome (Request + string).
Variable mapRange : ∀ V : Type, gmap string V → list (string * V).

Implicit Types s : AppState (T := T) (O := O) (U := U).
Implicit Types a : App (T := T) (O := O) (U := U).

Local Notation copyHeaders := (copyHeaders CanonicalHeaderKey mapRange).
Local Notation httpError := (httpError CanonicalHeaderKey).
Local Notation forward :=
  (forward CanonicalHeaderKey newRequestError clientDo mapRange).
Local Notation handler :=
  (handler CanonicalHeaderKey newRequestError clientDo unmarshalRequest
     mapRange).
Local Notation forwardedRequest :=
  (Spec.forwardedRequest CanonicalHeaderKey mapRange).
Local Notation zeroRequest :=
  (mkRequest (mkRequestContext "" "" "" "" "" false)
     (mkRequestData "" [] ∅)).

(** X18.  [copyHeaders] adds to the destination: with canonical keys in
    the source, every key of the destination has the values it had,
    followed by the values the source has for it. *)
Theorem copyHeaders_appends (src dst : gmap string (list string)) k :
  (∀ V (m : gmap string V), mapRange V m ≡ₚ map_to_list m) →
  (∀ k, is_Some (src !! k) → CanonicalHeaderKey k = k) →
  copyHeaders src dst !!! k = dst !!! k ++ src !!! k.
Proof.
  intros Hrange Hcan. unfold Neutron.copyHeaders.
  rewrite copy_values.
  - assert (list_to_map (mapRange _ src) = src) as ->.
    { rewrite <- (list_to_map_to_list src) at 2.
      apply list_to_map_proper; [|apply Hrange].
      rewrite Hrange. apply NoDup_fst_map_to_list. }
    by rewrite (lookup_total_alt src).
  - rewrite Hrange. apply NoDup_fst_map_to_list.
  - intros [k0 vv] Hin. apply Hcan. rewrite Hrange in Hin.
    apply elem_of_map_to_list in Hin. simpl. eauto.
Qed.

(** The answer of [http.Error] on a writer whose status line is not
    written yet. *)
Lemma httpError_fresh (w : ResponseWriter.t) err code :
  ResponseWriter.wroteHeader w = None →
  ∃ h,
    ResponseWriter.wroteHeader (httpError w err code) = Some (code, h)
    ∧ h !! CanonicalHeaderKey "X-Content-Type-Options" = Some ["nosniff"]
    ∧ ResponseWriter.written (httpError w err code)
      = ResponseWriter.written w +:+ err +:+ String "010"%char "".
Proof.
  intros Hw. unfold Neutron.httpError, ResponseWriter.Write,
    ResponseWriter.WriteHeader, ResponseWriter.setHeader, headerSet.
  cbn. rewrite Hw. cbn. eexists. split; [reflexivity|].
  split; [by rewrite lookup_insert_eq|done].
Qed.

(** X19.  When the upstream request cannot be built, [forward] answers
    503 with the text of the error and sends nothing upstream. *)
Theorem forward_rejected_url a (w : ResponseWriter.t) r body s err :
  ResponseWriter.wroteHeader w = None →
  newRequestError (contrailAPIURL a +:+ Inbound.URLPath r) = Some err →
  forwarded (forward a w r body s).2 = forwarded s
  ∧ upstream (forward a w r body s).2 = upstream s
  ∧ ∃ h,
      ResponseWriter.wroteHeader (forward a w r body s).1 = Some (503, h)
      ∧ ResponseWriter.written (forward a w r body s).1
        = ResponseWriter.written w +:+ err +:+ String "010"%char "".
Proof.
  intros Hw Hurl. unfold Neutron.forward, NewRequest. rewrite Hurl.
  unfold_N. cbn [fst snd forwarded upstream].
  split; [done|]. split; [done|].
  destruct (httpError_fresh w err StatusServiceUnavailable Hw)
    as (h & Hh & _ & Hwr).
  by exists h.
Qed.

(** X20.  When the upstream service does not answer, [forward] has sent
    the one request and answers 503 with the text of the error. *)
Theorem forward_upstream_failure a (w : ResponseWriter.t) r body s err u :
  ResponseWriter.wroteHeader w = None →
  newRequestError (contrailAPIURL a +:+ Inbound.URLPath r) = None →
  clientDo (forwardedRequest a r body) (upstream s) = (inr err, u) →
  forwarded (forward a w r body s).2
  = forwarded s ++ [forwardedRequest a r body]
  ∧ upstream (forward a w r body s).2 = u
  ∧ ∃ h,
      ResponseWriter.wroteHeader (forward a w r body s).1 = Some (503, h)
      ∧ ResponseWriter.written (forward a w r body s).1
        = ResponseWriter.written w +:+ err +:+ String "010"%char "".
Proof.
  intros Hw Hurl Hdo. unfold Neutron.forward, NewRequest. rewrite Hurl.
  unfold_N. cbn [Outbound.Method Outbound.URL Outbound.Header Outbound.Body].
  fold (forwardedRequest a r body). cbn [upstream]. rewrite Hdo.
  cbn [fst snd forwarded upstream].
  split; [done|]. split; [done|].
  destruct (httpError_fresh w err StatusServiceUnavailable Hw)
    as (h & Hh & _ & Hwr).
  by exists h.
Qed.

(** X21.  When the body of the upstream answer breaks off, the status
    line of the upstream answer is written already: the caller gets the
    upstream status, not 500, and after what was read of the body the
    text of the error. *)
Theorem forward_copy_failure_keeps_status a r body s resp u err :
  newRequestError (contrailAPIURL a +:+ Inbound.URLPath r) = None →
  clientDo (forwardedRequest a r body) (upstream s) = (inl resp, u) →
  failure (Response.Body resp) = Some err →
  ResponseWriter.wroteHeader (forward a ResponseWriter.fresh r body s).1
  = Some (Response.StatusCode resp, copyHeaders (Response.Header resp) ∅)
  ∧ ResponseWriter.written (forward a ResponseWriter.fresh r body s).1
    = content (Response.Body resp) +:+ err +:+ String "010"%char "".
Proof.
  intros Hurl Hdo Hfail. unfold Neutron.forward, NewRequest. rewrite Hurl.
  unfold_N. cbn [Outbound.Method Outbound.URL Outbound.Header Outbound.Body].
  fold (forwardedRequest a r body). cbn [upstream]. rewrite Hdo.
  unfold ioCopy. rewrite Hfail. cbn [fst snd].
  split.
  - destruct (decide (content (Response.Body resp) = "")); reflexivity.
  - destruct (decide (content (Response.Body resp) = "")) as [->|?];
      reflexivity.
Qed.

(** X22.  While the backend is disconnected the handler forwards the
    request as it came: the body is not read, nothing is decoded and the
    table of methods is not looked at, so the answer is the same for any
    decoder and any table. *)
Theorem handler_disconnected_skips_dispatch
    (unmarshalRequest' : string → Request → outcome (Request + string))
    a a' (w : ResponseWriter.t) (r : Inbound.t) s :
  Gremlin.connected (Gremlin.backend (world s)) = false →
  contrailAPIURL a' = contrailAPIURL a →
  handler a w r s
  = (Returned (forward a w r (Inbound.Body r) s).1,
     (forward a w r (Inbound.Body r) s).2)
  ∧ Neutron.handler CanonicalHeaderKey newRequestError clientDo
      unmarshalRequest' mapRange a' w r s
    = handler a w r s.
Proof.
  intros Hdis Hurl.
  assert (Hf : Neutron.forward CanonicalHeaderKey newRequestError clientDo
                 mapRange a' w r (Inbound.Body r) s
               = forward a w r (Inbound.Body r) s).
  { unfold Neutron.forward. by rewrite Hurl. }
  unfold Neutron.handler. unfold_N. rewrite Hdis. cbn [negb].
  rewrite Hf. by destruct (forward a w r (Inbound.Body r) s).
Qed.


End GatewayRouting.

Section NewApp.
Context {T O U : Type}.
Variable clientAddConnectedHandler : T → T.
Variable clientAddDisconnectedHandler : T → T.
Variable CanonicalHeaderKey : string → string.
Variable newRequestError : string → option string.
Variable clientDo : Outbound.t → U → (Response.t + string) * U.
Variable unmarshalRequest : string → Request → outcome (Request + string).
Variable mapRange : ∀ V : Type, gmap string V → list (string * V).

Local Notation Method :=
  (Request → N (T := T) (O := O) (U := U) (string + string)).
Local Notation forward :=
  (forward CanonicalHeaderKey newRequestError clientDo mapRange).
Local Notation handler :=
  (handler CanonicalHeaderKey newRequestError clientDo unmarshalRequest
     mapRange).

Local Notation newApp :=
  (newApp clientAddConnectedHandler clientAddDisconnectedHandler).

Lemma enableImplems_run (allImplems : gmap string Method) implems
    (methods : gmap string Method) (logged : list StartupLogEntry) :
  fold_left
    (λ '(methods, logged) implem,
       match allImplems !! implem with
       | Some method =>
           (<[implem := method]> methods, logged ++ [LogEnabling implem])
       | None => (methods, logged ++ [LogNotAvailable implem])
       end)
    implems (methods, logged)
  = (filter (λ kv, kv.1 ∈ implems) allImplems ∪ methods,
     logged
       ++ ((λ implem,
              match allImplems !! implem with
              | Some _ => LogEnabling implem
              | None => LogNotAvailable implem
              end) <$> implems)).
Proof.
  revert methods logged.
  induction implems as [|implem implems IH]; intros methods logged.
  - cbn [fold_left fmap list_fmap]. rewrite app_nil_r. f_equal.
    apply map_eq. intros k. rewrite lookup_union, map_lookup_filter.
    destruct (allImplems !! k) as [m|]; cbn; [|by destruct (methods !! k)].
    rewrite option_guard_decide, decide_False by apply not_elem_of_nil.
    by destruct (methods !! k).
  - cbn [fold_left fmap list_fmap].
    destruct (allImplems !! implem) as [method|] eqn:E;
      rewrite IH, <- app_assoc;
      (apply pair_equal_spec; split; [|reflexivity]);
      apply map_eq; intros k; rewrite !lookup_union, !map_lookup_filter.
    + destruct (decide (k = implem)) as [->|Hne].
      * rewrite lookup_insert_eq, E. cbn. rewrite !option_guard_decide.
        rewrite (decide_True (P := implem ∈ implem :: implems))
          by (by left).
        destruct (decide (implem ∈ implems));
          by destruct (methods !! implem).
      * rewrite lookup_insert_ne by done.
        destruct (allImplems !! k) as [m|]; cbn; [|done].
        rewrite !option_guard_decide.
        destruct (decide (k ∈ implems)) as [Hin|Hnin].
        -- rewrite decide_True by (by right). done.
        -- rewrite decide_False; [done|].
           by intros [H|H]%elem_of_cons.
    + destruct (allImplems !! k) as [m|] eqn:Ek; cbn; [|done].
      rewrite !option_guard_decide.
      destruct (decide (k ∈ implems)) as [Hin|Hnin].
      * rewrite decide_True by (by right). done.
      * rewrite decide_False; [done|].
        intros [H|H]%elem_of_cons; [congruence|done].
Qed.

(** X25.  The application [newApp] builds.  Its table of methods holds,
    for every requested name that has an implementation, that
    implementation, and nothing else; a requested name without an
    implementation is logged and left out.  One entry is logged for each
    requested name, in the order of the request.  The backend starts
    disconnected with the two handlers of the application registered, so
    every request is forwarded until the backend reports a
    connection. *)
Theorem newApp_table_and_start
    (allImplems : gmap string Method) (c : T)
    (onGremlinConnect : O → O)
    (onGremlinDisconnect : option Gremlin.client_error → O → O)
    (o : O) (u : U) (contrailAPISrv : string) (implems : list string) :
  let '(a, s, startup) :=
    newApp allImplems c onGremlinConnect onGremlinDisconnect o u
      contrailAPISrv implems in
  (∀ k, methods a !! k
        = if decide (k ∈ implems) then allImplems !! k else None)
  ∧ contrailAPIURL a = "http://" +:+ contrailAPISrv
  ∧ startup
    = (λ implem,
         match allImplems !! implem with
         | Some _ => LogEnabling implem
         | None => LogNotAvailable implem
         end) <$> implems
  ∧ Gremlin.connected (Gremlin.backend (world s)) = false
  ∧ length (Gremlin.connectedHandlers (Gremlin.backend (world s))) = 1
  ∧ length (Gremlin.disconnectedHandlers (Gremlin.backend (world s))) = 1
  ∧ forwarded s = [] ∧ Gremlin.sent (world s) = []
  ∧ ∀ w r,
      handler a w r s
      = (Returned (forward a w r (Inbound.Body r) s).1,
         (forward a w r (Inbound.Body r) s).2).
Proof.
  unfold Neutron.newApp, enableImplems. rewrite enableImplems_run.
  cbn [Gremlin.AddConnectedHandler Gremlin.AddDisconnectedHandler
       Gremlin.withBackend snd].
  cbn. repeat split.
  - intros k. rewrite (right_id ∅ (∪)), map_lookup_filter.
    destruct (allImplems !! k) as [m|]; cbn.
    + by rewrite option_guard_decide.
    + by destruct (decide (k ∈ implems)).
  - intros w r. unfold Neutron.handler. unfold_N. cbn [negb].
    cbn [world Gremlin.backend Gremlin.connected negb].
    match goal with
    | |- context [forward ?a w r (Inbound.Body r) ?s] =>
        by destruct (forward a w r (Inbound.Body r) s)
    end.
Qed.
End NewApp.

Lemma copyHeaders_appends_witness :
  copyHeaders SampleGateway.canonical Sample.mapRange
    {[ "Accept" := ["*/*"] ]} {[ "Accept" := ["text/html"] ]} !!! "Accept"
  = ["text/html"; "*/*"].
Proof.
  rewrite copyHeaders_appends.
  - vm_compute. reflexivity.
  - intros V m. reflexivity.
  - intros k _. reflexivity.
Defined.

Lemma forward_rejected_url_witness :
  forwarded
    (forward SampleGateway.canonical SampleFailures.rejectURL
       (SampleGateway.upstreamAnswers SampleGateway.okResponse)
       Sample.mapRange SampleGateway.app ResponseWriter.fresh
       SampleGateway.getPorts (NewReader "") (SampleGateway.state false)).2
  = [].
Proof.
  destruct (forward_rejected_url SampleGateway.canonical
              SampleFailures.rejectURL
              (SampleGateway.upstreamAnswers SampleGateway.okResponse)
              Sample.mapRange SampleGateway.app ResponseWriter.fresh
              SampleGateway.getPorts (NewReader "")
              (SampleGateway.state false) "invalid URL")
    as (H & _).
  - reflexivity.
  - reflexivity.
  - exact H.
Defined.

Lemma forward_upstream_failure_witness :
  ∃ h,
    ResponseWriter.wroteHeader
      (forward SampleGateway.canonical SampleGateway.noURLError
         SampleFailures.upstreamDown Sample.mapRange SampleGateway.app
         ResponseWriter.fresh SampleGateway.getPorts (NewReader "")
         (SampleGateway.state false)).1
    = Some (503, h).
Proof.
  destruct (forward_upstream_failure SampleGateway.canonical
              SampleGateway.noURLError SampleFailures.upstreamDown
              Sample.mapRange SampleGateway.app ResponseWriter.fresh
              SampleGateway.getPorts (NewReader "")
              (SampleGateway.state false) "connection refused" tt)
    as (_ & _ & h & H & _).
  - reflexivity.
  - reflexivity.
  - reflexivity.
  - exists h. exact H.
Defined.

Lemma forward_copy_failure_keeps_status_witness :
  fst <$>
    ResponseWriter.wroteHeader
      (forward SampleGateway.canonical SampleGateway.noURLError
         (SampleGateway.upstreamAnswers (SampleFailures.brokenResponse "[1,"))
         Sample.mapRange SampleGateway.app ResponseWriter.fresh
         SampleGateway.getPorts (NewReader "")
         (SampleGateway.state false)).1
  = Some 200.
Proof.
  destruct (forward_copy_failure_keeps_status SampleGateway.canonical
              SampleGateway.noURLError
              (SampleGateway.upstreamAnswers
                 (SampleFailures.brokenResponse "[1,"))
              Sample.mapRange SampleGateway.app SampleGateway.getPorts
              (NewReader "") (SampleGateway.state false)
              (SampleFailures.brokenResponse "[1,") tt "unexpected EOF")
    as (H & _).
  - reflexivity.
  - reflexivity.
  - reflexivity.
  - rewrite H. reflexivity.
Defined.

Lemma handler_disconnected_skips_dispatch_witness :
  handler SampleGateway.canonical SampleGateway.noURLError
    (SampleGateway.upstreamAnswers SampleGateway.okResponse)
    SampleFailures.rejects Sample.mapRange SampleFailures.appWithPorts
    ResponseWriter.fresh SampleGateway.getPorts (SampleGateway.state false)
  = handler SampleGateway.canonical SampleGateway.noURLError
      (SampleGateway.upstreamAnswers SampleGateway.okResponse)
      (SampleGateway.decodesTo SampleFailures.portRequest) Sample.mapRange
      SampleGateway.app ResponseWriter.fresh SampleGateway.getPorts
      (SampleGateway.state false).
Proof.
  apply (handler_disconnected_skips_dispatch SampleGateway.canonical
           SampleGateway.noURLError
           (SampleGateway.upstreamAnswers SampleGateway.okResponse)
           (SampleGateway.decodesTo SampleFailures.portRequest)
           Sample.mapRange SampleFailures.rejects SampleGateway.app
           SampleFailures.appWithPorts ResponseWriter.fresh
           SampleGateway.getPorts (SampleGateway.state false)).
  - reflexivity.
  - reflexivity.
Defined.


